(** * Splay tree used as a memo table (algo_task_2.py)

    A shallow embedding of [Node], [SplayTree] and [fibonacci_splay],
    followed by the properties of the specification that concern them.

    Python objects are mutated in place; the tree is an ownership tree
    (no node is reachable along two paths), so a node is modelled by an
    inductive value and an assignment to a field by rebuilding the node.
    An attribute access on [None] raises [AttributeError] in Python; the
    model keeps that outcome explicit in the [result] type. *)

From Stdlib Require Import ZArith List Lia Bool Sorting.Sorted.
Import ListNotations.
Local Open Scope Z_scope.

(** ** Outcomes of a call *)

Inductive exn : Type :=
| AttributeError   (* attribute access on None *)
| RecursionError.  (* call depth exhausted *)

Inductive result (A : Type) : Type :=
| Ok (a : A)
| Raise (e : exn).
Arguments Ok {A} a.
Arguments Raise {A} e.

Definition bind {A B} (m : result A) (f : A -> result B) : result B :=
  match m with
  | Ok a => f a
  | Raise e => Raise e
  end.

Notation "x <- m ;; k" := (bind m (fun x => k))
  (at level 61, m at next level, right associativity).

(** ** Node *)

(** [Node | None]: [Nil] stands for [None]. *)
Inductive tree : Type :=
| Nil
| Node (key value : Z) (left right : tree).

Definition is_none (t : tree) : bool :=
  match t with Nil => true | Node _ _ _ _ => false end.

(** [t.left] and [t.right]: reading an attribute of [None] raises. *)
Definition left_of (t : tree) : result tree :=
  match t with Nil => Raise AttributeError | Node _ _ l _ => Ok l end.

Definition right_of (t : tree) : result tree :=
  match t with Nil => Raise AttributeError | Node _ _ _ r => Ok r end.

(** ** SplayTree *)

(** [_rotate_right]: [y = x.left; x.left = y.right; y.right = x; return y]. *)
Definition rotate_right (x : tree) : result tree :=
  match x with
  | Node xk xv (Node yk yv yl yr) xr => Ok (Node yk yv yl (Node xk xv yr xr))
  | _ => Raise AttributeError
  end.

(** [_rotate_left]: [y = x.right; x.right = y.left; y.left = x; return y]. *)
Definition rotate_left (x : tree) : result tree :=
  match x with
  | Node xk xv xl (Node yk yv yl yr) => Ok (Node yk yv (Node xk xv xl yl) yr)
  | _ => Raise AttributeError
  end.

(** The body of [_splay], with the recursive call [self._splay] as [rec]. *)
Definition splay_body (rec : tree -> Z -> result tree)
    (root : tree) (key : Z) : result tree :=
  match root with
  | Nil => Ok root
  | Node rk rv l r =>
    if rk =? key then Ok root
    else if key <? rk then
      match l with
      | Nil => Ok root
      | Node lk lv ll lr =>
        root1 <-
          (if key <? lk then
             ll' <- rec ll key ;;
             rotate_right (Node rk rv (Node lk lv ll' lr) r)
           else if key >? lk then
             lr' <- rec lr key ;;
             if is_none lr' then Ok (Node rk rv (Node lk lv ll lr') r)
             else
               l' <- rotate_left (Node lk lv ll lr') ;;
               Ok (Node rk rv l' r)
           else Ok root) ;;
        l1 <- left_of root1 ;;
        if is_none l1 then Ok root1 else rotate_right root1
      end
    else
      match r with
      | Nil => Ok root
      | Node qk qv rl rr =>
        root1 <-
          (if key >? qk then
             rr' <- rec rr key ;;
             rotate_left (Node rk rv l (Node qk qv rl rr'))
           else if key <? qk then
             rl' <- rec rl key ;;
             if is_none rl' then Ok (Node rk rv l (Node qk qv rl' rr))
             else
               r' <- rotate_right (Node qk qv rl' rr) ;;
               Ok (Node rk rv l r')
           else Ok root) ;;
        r1 <- right_of root1 ;;
        if is_none r1 then Ok root1 else rotate_left root1
      end
  end.

(** [_splay]: the recursive calls are on [root.left.left], [root.left.right],
    [root.right.right] or [root.right.left]. *)
Fixpoint splay (root : tree) (key : Z) {struct root} : result tree :=
  splay_body splay root key.

(** [_splay] run with a bound on the depth of nested calls: a call made
    when no frame is left raises [RecursionError]. *)
Fixpoint splay_fuel (fuel : nat) (root : tree) (key : Z) : result tree :=
  match fuel with
  | O => Raise RecursionError
  | S fuel' => splay_body (splay_fuel fuel') root key
  end.

(** Methods of [SplayTree] read and write [self.root]: they are state
    transformers over the root that may raise. *)
Definition M (A : Type) : Type := tree -> result (A * tree).

Definition ret {A} (a : A) : M A := fun root => Ok (a, root).

Definition bindM {A B} (m : M A) (f : A -> M B) : M B :=
  fun root =>
    match m root with
    | Ok (a, root') => f a root'
    | Raise e => Raise e
    end.

Notation "x <~ m ;; k" := (bindM m (fun x => k))
  (at level 61, m at next level, right associativity).
Notation "m ;;; k" := (bindM m (fun _ => k))
  (at level 61, right associativity).

(** [search]: the result [None] is the miss. *)
Definition search (key : Z) : M (option Z) :=
  fun root =>
    root' <- splay root key ;;
    match root' with
    | Node rk rv _ _ =>
      if rk =? key then Ok (Some rv, root') else Ok (None, root')
    | Nil => Ok (None, root')
    end.

(** [insert]. *)
Definition insert (key value : Z) : M unit :=
  fun root =>
    match root with
    | Nil => Ok (tt, Node key value Nil Nil)
    | Node _ _ _ _ =>
      root' <- splay root key ;;
      match root' with
      | Nil => Raise AttributeError
      | Node rk rv l r =>
        if rk =? key then Ok (tt, Node rk value l r)
        else if key <? rk then Ok (tt, Node key value l (Node rk rv Nil r))
        else Ok (tt, Node key value (Node rk rv l Nil) r)
      end
    end.

(** ** fibonacci_splay *)

(** [for k in range(lo, lo + count): body(k)]. *)
Fixpoint for_range (lo : Z) (count : nat) (body : Z -> M unit) : M unit :=
  match count with
  | O => ret tt
  | S count' => body lo ;;; for_range (lo + 1) count' body
  end.

(** [a if a is not None else 0]. *)
Definition or_zero (a : option Z) : Z :=
  match a with Some x => x | None => 0 end.

(** One turn of the fill loop of [fibonacci_splay]. *)
Definition fill (k : Z) : M unit :=
  s <~ search k ;;
  match s with
  | None =>
    if k <? 2 then insert k k
    else
      a <~ search (k - 1) ;;
      b <~ search (k - 2) ;;
      insert k (or_zero a + or_zero b)
  | Some _ => ret tt
  end.

Definition fibonacci_splay (n : Z) : M (option Z) :=
  hit <~ search n ;;
  match hit with
  | Some h => ret (Some h)
  | None =>
    for_range 0 (Z.to_nat (n + 1)) fill ;;;
    search n
  end.

(** ** Observations on trees *)

(** The (key, value) pairs of a tree, in symmetric order. *)
Fixpoint items (t : tree) : list (Z * Z) :=
  match t with
  | Nil => []
  | Node k v l r => items l ++ (k, v) :: items r
  end.

Definition keys (t : tree) : list Z := map fst (items t).

Fixpoint count_nodes (t : tree) : nat :=
  match t with
  | Nil => O
  | Node _ _ l r => S (count_nodes l + count_nodes r)
  end.

Fixpoint height (t : tree) : nat :=
  match t with
  | Nil => O
  | Node _ _ l r => S (Nat.max (height l) (height r))
  end.

(** Every key of [t] satisfies [P]. *)
Fixpoint all_keys (P : Z -> Prop) (t : tree) : Prop :=
  match t with
  | Nil => True
  | Node k _ l r => P k /\ all_keys P l /\ all_keys P r
  end.

(** The binary-search-tree invariant: at every node, the keys of the left
    subtree are strictly smaller and those of the right subtree strictly
    greater than the node's key. *)
Fixpoint bst (t : tree) : Prop :=
  match t with
  | Nil => True
  | Node k _ l r =>
    all_keys (fun x => x < k) l /\ all_keys (fun x => k < x) r /\
    bst l /\ bst r
  end.

(** A call of [insert] or [search] on the tree, and a sequence of them. *)
Inductive call : Type :=
| Insert (key value : Z)
| Search (key : Z).

Definition do_call (c : call) : M unit :=
  match c with
  | Insert k v => insert k v
  | Search k => search k ;;; ret tt
  end.

Fixpoint do_calls (cs : list call) : M unit :=
  match cs with
  | [] => ret tt
  | c :: cs' => do_call c ;;; do_calls cs'
  end.

(** Calls of the driver, one after the other, on one tree. *)
Fixpoint driver_calls (ns : list Z) : M unit :=
  match ns with
  | [] => ret tt
  | n :: ns' => fibonacci_splay n ;;; driver_calls ns'
  end.

(** The reference for the recurrence F(0)=0, F(1)=1, F(k)=F(k-1)+F(k-2):
    [a, b = 0, 1], then [n] times [a, b = b, a + b], result [a]. *)
Fixpoint fib_loop (count : nat) (a b : Z) : Z :=
  match count with
  | O => a
  | S count' => fib_loop count' b (a + b)
  end.

Definition fib_iter (n : Z) : Z := fib_loop (Z.to_nat n) 0 1.

(** ** fibonacci_lru *)

Definition MAX_RECURSIVE_N : Z := 400.

(** The store of [lru_cache(maxsize=None)]: argument and result of the
    calls that returned, the latest first. [cache_clear] empties it. *)
Definition cache : Type := list (Z * Z).

Fixpoint cache_get (n : Z) (c : cache) : option Z :=
  match c with
  | [] => None
  | (k, v) :: c' => if k =? n then Some v else cache_get n c'
  end.

(** [a, b = 0, 1], then for each index of [range(2, n + 1)]
    [a, b = b, a + b]; the result is [b]. *)
Fixpoint fib_for (count : nat) (a b : Z) : Z :=
  match count with
  | O => b
  | S count' => fib_for count' b (a + b)
  end.

(** [fibonacci_lru] behind its cache, with a bound on the depth of nested
    calls: a call whose argument is stored returns the stored result, any
    other call runs the function and stores what it returns. *)
Fixpoint fibonacci_lru (depth : nat) (n : Z) (c : cache) : result (Z * cache) :=
  match depth with
  | O => Raise RecursionError
  | S depth' =>
    match cache_get n c with
    | Some v => Ok (v, c)
    | None =>
      r <- (if n <? 2 then Ok (n, c)
            else if n <=? MAX_RECURSIVE_N then
              r1 <- fibonacci_lru depth' (n - 1) c ;;
              r2 <- fibonacci_lru depth' (n - 2) (snd r1) ;;
              Ok (fst r1 + fst r2, snd r2)
            else Ok (fib_for (Z.to_nat (n + 1 - 2)) 0 1, c)) ;;
      Ok (fst r, (n, fst r) :: snd r)
    end
  end.

(** What [fibonacci_lru] computes: the argument itself below 0, the
    recurrence from 0 on. *)
Definition fib_value (n : Z) : Z := if n <? 0 then n else fib_iter n.

(** Every stored result is the value of the function at its argument. *)
Definition cache_ok (c : cache) : Prop :=
  forall k v, cache_get k c = Some v -> v = fib_value k.

(** ** algo_task_1.py: the LRU cache and the range sums *)

(** The exceptions of dictionaries and lists. *)
Inductive error : Type :=
| KeyError     (* key missing from a dictionary *)
| IndexError.  (* list index out of range *)

Inductive outcome (A : Type) : Type :=
| Return (a : A)
| Throw (e : error).
Arguments Return {A} a.
Arguments Throw {A} e.

Definition and_then {A B} (m : outcome A) (f : A -> outcome B) : outcome B :=
  match m with
  | Return a => f a
  | Throw e => Throw e
  end.

Notation "x <-- m ;; k" := (and_then m (fun x => k))
  (at level 61, m at next level, right associativity).

(** An [OrderedDict] whose keys are the pairs [(left, right)] the program
    uses: the pairs of key and value in the order of the dictionary, the
    first to go out at the head. *)
Module OrderedDict.

Definition key : Type := (Z * Z)%type.

Definition key_eqb (a b : key) : bool :=
  (fst a =? fst b) && (snd a =? snd b).

Definition t : Type := list (key * Z).

(** [k in d]. *)
Definition contains (k : key) (d : t) : bool :=
  existsb (fun e => key_eqb (fst e) k) d.

(** [d[k]]. *)
Definition getitem (k : key) (d : t) : outcome Z :=
  match find (fun e => key_eqb (fst e) k) d with
  | Some e => Return (snd e)
  | None => Throw KeyError
  end.

(** [d.pop(k, None)]: the dictionary without the key. *)
Definition pop_default (k : key) (d : t) : t :=
  filter (fun e => negb (key_eqb (fst e) k)) d.

(** [d.move_to_end(k)]. *)
Definition move_to_end (k : key) (d : t) : outcome t :=
  v <-- getitem k d ;;
  Return (pop_default k d ++ [(k, v)]).

(** [d[k] = v]: a key of the dictionary keeps its place, a new key goes
    to the end. *)
Definition setitem (k : key) (v : Z) (d : t) : t :=
  if contains k d
  then map (fun e => if key_eqb (fst e) k then (fst e, v) else e) d
  else d ++ [(k, v)].

(** [d.popitem(last=False)]. *)
Definition popitem_first (d : t) : outcome ((key * Z) * t) :=
  match d with
  | [] => Throw KeyError
  | e :: d' => Return (e, d')
  end.

End OrderedDict.

Module LRUCache.

Record t : Type := mk { capacity : Z; data : OrderedDict.t }.

(** [LRUCache(capacity)]. *)
Definition init (capacity : Z) : t := mk capacity [].

Definition get (c : t) (k : OrderedDict.key) : outcome (Z * t) :=
  if OrderedDict.contains k (data c) then
    d <-- OrderedDict.move_to_end k (data c) ;;
    v <-- OrderedDict.getitem k d ;;
    Return (v, mk (capacity c) d)
  else Return (-1, c).

Definition put (c : t) (k : OrderedDict.key) (v : Z) : outcome t :=
  d1 <-- (if OrderedDict.contains k (data c)
          then OrderedDict.move_to_end k (data c)
          else Return (data c)) ;;
  let d2 := OrderedDict.setitem k v d1 in
  if Z.of_nat (length d2) >? capacity c then
    p <-- OrderedDict.popitem_first d2 ;;
    Return (mk (capacity c) (snd p))
  else Return (mk (capacity c) d2).

Definition keys (c : t) : list OrderedDict.key := map fst (data c).

End LRUCache.

(** [sum(l)]. *)
Definition sum_list (l : list Z) : Z := fold_left Z.add l 0.

(** A bound of a slice brought into [0 .. len]: a negative bound counts
    from the end. *)
Definition slice_bound (len i : Z) : Z :=
  if i <? 0 then Z.max (i + len) 0 else Z.min i len.

(** [a[start:stop]]. *)
Definition slice (a : list Z) (start stop : Z) : list Z :=
  let len := Z.of_nat (length a) in
  let s := slice_bound len start in
  let e := slice_bound len stop in
  firstn (Z.to_nat (e - s)) (skipn (Z.to_nat s) a).

(** [a[index] = value]: a negative index counts from the end; an index
    outside the list raises. *)
Definition list_setitem (a : list Z) (index value : Z) : outcome (list Z) :=
  let len := Z.of_nat (length a) in
  let i := if index <? 0 then index + len else index in
  if (i <? 0) || (i >=? len) then Throw IndexError
  else Return (firstn (Z.to_nat i) a ++ value :: skipn (S (Z.to_nat i)) a).

Definition range_sum_no_cache (array : list Z) (left right : Z) : Z :=
  sum_list (slice array left (right + 1)).

Definition update_no_cache (array : list Z) (index value : Z)
  : outcome (list Z) :=
  list_setitem array index value.

(** [CacheContext] has the cache as its only field: the functions below
    take and give back the cache. *)
Definition range_sum_with_cache (cache : LRUCache.t) (array : list Z)
    (left right : Z) : outcome (Z * LRUCache.t) :=
  let key := (left, right) in
  g <-- LRUCache.get cache key ;;
  let cached := fst g in
  if negb (cached =? -1) then Return (cached, snd g)
  else
    let result := sum_list (slice array left (right + 1)) in
    cache' <-- LRUCache.put (snd g) key result ;;
    Return (result, cache').

(** One turn of the loop of [update_with_cache] at the key [(l, r)]:
    [if l <= index <= r: ctx.cache._data.pop((l, r), None)]. *)
Definition drop_covering (index : Z) (d : OrderedDict.t) (k : OrderedDict.key)
  : OrderedDict.t :=
  if (fst k <=? index) && (index <=? snd k)
  then OrderedDict.pop_default k d else d.

(** [update_with_cache]: the loop runs over the list of keys taken before
    it starts, with the index as given. *)
Definition update_with_cache (cache : LRUCache.t) (array : list Z)
    (index value : Z) : outcome (LRUCache.t * list Z) :=
  array' <-- list_setitem array index value ;;
  let d :=
    fold_left (drop_covering index)
      (LRUCache.keys cache) (LRUCache.data cache) in
  Return (LRUCache.mk (LRUCache.capacity cache) d, array').

(** The queries of [run_benchmark]: [("Range", left, right)] and
    [("Update", index, value)]. *)
Inductive query : Type :=
| Range (left right : Z)
| Update (index value : Z).

(** The first loop of [run_benchmark]: the checksum and the array. *)
Fixpoint run_no_cache (queries : list query) (checksum : Z) (array : list Z)
  : outcome (Z * list Z) :=
  match queries with
  | [] => Return (checksum, array)
  | Range a b :: queries' =>
    run_no_cache queries' (Z.lxor checksum (range_sum_no_cache array a b)) array
  | Update a b :: queries' =>
    array' <-- update_no_cache array a b ;;
    run_no_cache queries' checksum array'
  end.

(** The second loop of [run_benchmark]. *)
Fixpoint run_with_cache (queries : list query) (checksum : Z)
    (cache : LRUCache.t) (array : list Z) : outcome (Z * LRUCache.t * list Z) :=
  match queries with
  | [] => Return (checksum, cache, array)
  | Range a b :: queries' =>
    r <-- range_sum_with_cache cache array a b ;;
    run_with_cache queries' (Z.lxor checksum (fst r)) (snd r) array
  | Update a b :: queries' =>
    r <-- update_with_cache cache array a b ;;
    run_with_cache queries' checksum (fst r) (snd r)
  end.

(** Every stored sum is the sum of its range in the array, and no stored
    range ends before -1. *)
Definition coherent (array : list Z) (d : OrderedDict.t) : Prop :=
  Forall (fun e => -1 <= snd (fst e) /\
                   snd e = range_sum_no_cache array (fst (fst e)) (snd (fst e)))
         d.

(** The queries the invalidation of [update_with_cache] is made for: a
    range that does not end before -1, an index of the array from 0 on. *)
Definition query_ok (len : nat) (q : query) : Prop :=
  match q with
  | Range _ r => -1 <= r
  | Update i _ => 0 <= i < Z.of_nat len
  end.

(** A full cache of two ranges, used in the examples below. *)
Definition cache_two : LRUCache.t :=
  LRUCache.mk 2 [((0, 1), 10); ((2, 3), 20)].

(** Trees used in the examples below. *)
Definition tree_3_5 : tree := Node 3 30 Nil (Node 5 50 Nil Nil).
Definition tree_1_10 : tree := Node 1 1 Nil (Node 10 10 Nil Nil).
Definition tree_5_3_4 : tree :=
  Node 5 50 (Node 3 30 Nil (Node 4 40 Nil Nil)) Nil.

(** [s] is the root of a subtree two levels below the root of [t]. *)
Inductive grandchild : tree -> tree -> Prop :=
| gc_left_left k v lk lv ll lr r :
    grandchild ll (Node k v (Node lk lv ll lr) r)
| gc_left_right k v lk lv ll lr r :
    grandchild lr (Node k v (Node lk lv ll lr) r)
| gc_right_left k v l qk qv rl rr :
    grandchild rl (Node k v l (Node qk qv rl rr))
| gc_right_right k v l qk qv rl rr :
    grandchild rr (Node k v l (Node qk qv rl rr)).

(** What the root of a splayed tree is to the key: when it is not the key
    itself, no key of the tree lies between the two. *)
Definition neighbour (key : Z) (t : tree) : Prop :=
  match t with
  | Nil => True
  | Node rk _ l r =>
    (key < rk -> all_keys (fun x => x < key) l) /\
    (rk < key -> all_keys (fun x => key < x) r)
  end.

(** The entries of a memo table for the recurrence: every stored index
    from 0 on carries the value of the recurrence at that index. *)
Definition memo (t : tree) : Prop :=
  forall k v, In (k, v) (items t) -> 0 <= k -> v = fib_iter k.

(** Every index below [k] is stored. *)
Definition filled_below (k : Z) (t : tree) : Prop :=
  forall j, 0 <= j < k -> In j (keys t).

(** The reading of "nearest" by distance: [search] misses and leaves at
    the root a key of the tree that no other key beats in distance to [k]. *)
Definition closest_after_miss (t : tree) (k : Z) : Prop :=
  exists rk rv l r,
    search k t = Ok (None, Node rk rv l r) /\
    forall x, In x (keys t) -> Z.abs (rk - k) <= Z.abs (x - k).

(** * Properties *)

(** The scenario of the specification, from the empty tree. *)
Example scenario_insert_5 : insert 5 50 Nil = Ok (tt, Node 5 50 Nil Nil).
Proof. reflexivity. Qed.

Example scenario_insert_3 :
  insert 3 30 (Node 5 50 Nil Nil) = Ok (tt, tree_3_5).
Proof. reflexivity. Qed.

Example scenario_search_5 :
  search 5 tree_3_5 = Ok (Some 50, Node 5 50 (Node 3 30 Nil Nil) Nil).
Proof. reflexivity. Qed.

Example scenario_search_9 :
  search 9 (Node 5 50 (Node 3 30 Nil Nil) Nil)
  = Ok (None, Node 5 50 (Node 3 30 Nil Nil) Nil).
Proof. reflexivity. Qed.

(** ** The shape of the recursion *)

Lemma splay_unfold (t : tree) (k : Z) : splay t k = splay_body splay t k.
Proof. destruct t; reflexivity. Qed.

Lemma grandchild_height (s t : tree) :
  grandchild s t -> (S (S (height s)) <= height t)%nat.
Proof. destruct 1; cbn [height]; lia.
Qed.

(** Induction along the calls of [_splay]. *)
Lemma grandchild_ind_all (P : tree -> Prop) :
  (forall t, (forall s, grandchild s t -> P s) -> P t) -> forall t, P t.
Proof.
  intros step t.
  assert (H : forall n t, (height t < n)%nat -> P t).
  { induction n as [|n IH]; intros u Hu; [lia|].
    apply step. intros s Hs. apply IH.
    apply grandchild_height in Hs. lia. }
  apply (H (S (height t))). lia.
Qed.

(** The body only consults [rec] on grandchildren. *)
Lemma splay_body_ext (rec1 rec2 : tree -> Z -> result tree) (t : tree) (k : Z) :
  (forall s, grandchild s t -> rec1 s k = rec2 s k) ->
  splay_body rec1 t k = splay_body rec2 t k.
Proof.
  intros H. unfold splay_body.
  destruct t as [|rk rv l r]; [reflexivity|].
  destruct (rk =? k); [reflexivity|].
  destruct (k <? rk).
  - destruct l as [|lk lv ll lr]; [reflexivity|].
    destruct (k <? lk); [|destruct (k >? lk)];
      rewrite ?(H ll), ?(H lr) by constructor; reflexivity.
  - destruct r as [|qk qv rl rr]; [reflexivity|].
    destruct (k >? qk); [|destruct (k <? qk)];
      rewrite ?(H rl), ?(H rr) by constructor; reflexivity.
Qed.

Ltac same_items Hi :=
  simpl in *; eexists; (split; [reflexivity|]); simpl;
  rewrite <- ?Hi; simpl; repeat (rewrite <- ?app_assoc; simpl); auto.

(** One call returns, keeps the entries in symmetric order and returns
    [None] only for [None], provided the calls it makes do. *)
Lemma splay_body_items (rec : tree -> Z -> result tree) (t : tree) (k : Z) :
  (forall s, grandchild s t ->
     exists s', rec s k = Ok s' /\ items s' = items s) ->
  exists t', splay_body rec t k = Ok t' /\ items t' = items t /\
             is_none t' = is_none t.
Proof.
  intros H. unfold splay_body.
  destruct t as [|rk rv l r]; [now exists Nil|].
  destruct (rk =? k); [now eexists|].
  destruct (k <? rk).
  - destruct l as [|lk lv ll lr]; [now eexists|].
    destruct (k <? lk); [|destruct (k >? lk)].
    + destruct (H ll) as ([|xk xv xl xr] & -> & Hi);
        [constructor| |]; same_items Hi.
    + destruct (H lr) as ([|xk xv xl xr] & -> & Hi);
        [constructor| |]; same_items Hi.
    + same_items I.
  - destruct r as [|qk qv rl rr]; [now eexists|].
    destruct (k >? qk); [|destruct (k <? qk)].
    + destruct (H rr) as ([|xk xv xl xr] & -> & Hi);
        [constructor| |]; same_items Hi.
    + destruct (H rl) as ([|xk xv xl xr] & -> & Hi);
        [constructor| |]; same_items Hi.
    + same_items I.
Qed.

Lemma splay_items (t : tree) (k : Z) :
  exists t', splay t k = Ok t' /\ items t' = items t /\
             is_none t' = is_none t.
Proof.
  induction t as [t IH] using grandchild_ind_all.
  rewrite splay_unfold. apply splay_body_items.
  intros s Hs. destruct (IH s Hs) as (s' & E & Hi & _). eauto.
Qed.

Lemma splay_fuel_enough (fuel : nat) (t : tree) (k : Z) :
  (height t < 2 * fuel)%nat -> splay_fuel fuel t k = splay t k.
Proof.
  revert t. induction fuel as [|fuel IH]; intros t Hh; [lia|].
  simpl. rewrite splay_unfold. apply splay_body_ext.
  intros s Hs. apply IH. apply grandchild_height in Hs. lia.
Qed.

(** ** Keys, order and the entries *)

Lemma keys_node (k v : Z) (l r : tree) :
  keys (Node k v l r) = keys l ++ k :: keys r.
Proof. unfold keys. simpl. now rewrite map_app. Qed.

Lemma all_keys_Forall (P : Z -> Prop) (t : tree) :
  all_keys P t <-> Forall P (keys t).
Proof.
  induction t as [|k v l IHl r IHr].
  - split; constructor.
  - rewrite keys_node, Forall_app, Forall_cons_iff. simpl. tauto.
Qed.

Lemma all_keys_impl (P Q : Z -> Prop) (t : tree) :
  (forall x, P x -> Q x) -> all_keys P t -> all_keys Q t.
Proof. induction t; simpl; intuition auto. Qed.

Lemma all_keys_items (P : Z -> Prop) (s t : tree) :
  items s = items t -> all_keys P t -> all_keys P s.
Proof.
  intros E. rewrite !all_keys_Forall. unfold keys. now rewrite E.
Qed.

Lemma all_keys_In (P : Z -> Prop) (t : tree) (k : Z) :
  all_keys P t -> In k (keys t) -> P k.
Proof.
  rewrite all_keys_Forall, Forall_forall. auto.
Qed.

Lemma sorted_app (l1 l2 : list Z) (x : Z) :
  StronglySorted Z.lt (l1 ++ x :: l2) <->
  Forall (fun y => y < x) l1 /\ Forall (fun y => x < y) l2 /\
  StronglySorted Z.lt l1 /\ StronglySorted Z.lt l2.
Proof.
  induction l1 as [|a l1 IH]; simpl.
  - split.
    + intros H. inversion H; subst. repeat split; auto; constructor.
    + intros (_ & H2 & _ & H4). now constructor.
  - split.
    + intros H. inversion H as [|? ? Hs Hf]; subst.
      apply IH in Hs. destruct Hs as (H1 & H2 & H3 & H4).
      rewrite Forall_app, Forall_cons_iff in Hf.
      repeat split; auto; constructor; tauto.
    + intros (H1 & H2 & H3 & H4).
      inversion H1; subst. inversion H3; subst.
      constructor; [apply IH; tauto|].
      rewrite Forall_app, Forall_cons_iff. repeat split; auto.
      eapply Forall_impl; [|exact H2]. simpl. intros. lia.
Qed.

(** The invariant says that the keys in symmetric order increase strictly. *)
Lemma bst_sorted (t : tree) : bst t <-> StronglySorted Z.lt (keys t).
Proof.
  induction t as [|k v l IHl r IHr].
  - split; constructor.
  - rewrite keys_node, sorted_app, <- IHl, <- IHr, <- !all_keys_Forall.
    simpl. tauto.
Qed.

Lemma bst_items (s t : tree) : items s = items t -> bst t -> bst s.
Proof.
  intros E. rewrite !bst_sorted. unfold keys. now rewrite E.
Qed.

Lemma sorted_NoDup (l : list Z) : StronglySorted Z.lt l -> NoDup l.
Proof.
  induction 1 as [|a l Hs IH Hf]; constructor; auto.
  intros Hin. rewrite Forall_forall in Hf. specialize (Hf a Hin). lia.
Qed.

Lemma bst_NoDup (t : tree) : bst t -> NoDup (keys t).
Proof. rewrite bst_sorted. apply sorted_NoDup. Qed.

Ltac to_Z_order :=
  repeat match goal with
  | H : (_ >? _) = _ |- _ => rewrite Z.gtb_ltb in H
  | H : (_ =? _) = true |- _ => apply Z.eqb_eq in H
  | H : (_ =? _) = false |- _ => apply Z.eqb_neq in H
  | H : (_ <? _) = true |- _ => apply Z.ltb_lt in H
  | H : (_ <? _) = false |- _ => apply Z.ltb_ge in H
  end.

Ltac solve_all_keys :=
  match goal with
  | H : all_keys _ ?t |- all_keys _ ?t =>
      solve [refine (all_keys_impl _ _ _ _ H); simpl; intros; lia]
  | H : _ -> all_keys ?P ?t |- all_keys ?P ?t => apply H; lia
  end.

(** ** The root after a splay *)

Ltac finish_order :=
  simpl in *;
  repeat match goal with H : _ /\ _ |- _ => destruct H end;
  repeat split; intros; try lia; try exact I; try solve_all_keys.

(** A recursive call of [_splay] on the grandchild [g]: name its result,
    bring what is known of the keys of [g] over to it, and let the body run. *)
Ltac splay_call IH g k Bg gc :=
  let s := fresh "s" in
  let E := fresh "E" in
  let Hi := fresh "Hi" in
  let Hn := fresh "Hn" in
  destruct (splay_items g k) as (s & E & Hi & _);
  pose proof (IH g gc Bg s E) as Hn;
  rewrite E;
  repeat match goal with
  | H : all_keys _ g |- _ => apply (all_keys_items _ _ _ Hi) in H
  end;
  destruct s; simpl in *; intros [= <-].

Lemma splay_neighbour (t : tree) (k : Z) :
  bst t -> forall t', splay t k = Ok t' -> neighbour k t'.
Proof.
  induction t as [t IH] using grandchild_ind_all.
  intros Hb t'. rewrite splay_unfold. unfold splay_body.
  destruct t as [|rk rv l r]; [intros [= <-]; exact I|].
  destruct (rk =? k) eqn:E1.
  { intros [= <-]. to_Z_order. finish_order. }
  destruct (k <? rk) eqn:E2.
  - destruct l as [|lk lv ll lr].
    { intros [= <-]. to_Z_order. finish_order. }
    simpl in Hb.
    destruct Hb as ((Hlk & Hll & Hlr) & Hr & (Hll' & Hlr' & Bll & Blr) & Br).
    destruct (k <? lk) eqn:E3; [|destruct (k >? lk) eqn:E4]; to_Z_order.
    + splay_call IH ll k Bll (gc_left_left rk rv lk lv ll lr r);
        finish_order.
    + splay_call IH lr k Blr (gc_left_right rk rv lk lv ll lr r);
        finish_order.
    + intros [= <-]. finish_order.
  - destruct r as [|qk qv rl rr].
    { intros [= <-]. to_Z_order. finish_order. }
    simpl in Hb.
    destruct Hb as (Hl & (Hqk & Hrl & Hrr) & Bl & (Hrl' & Hrr' & Brl & Brr)).
    destruct (k >? qk) eqn:E3; [|destruct (k <? qk) eqn:E4]; to_Z_order.
    + splay_call IH rr k Brr (gc_right_right rk rv l qk qv rl rr);
        finish_order.
    + splay_call IH rl k Brl (gc_right_left rk rv l qk qv rl rr);
        finish_order.
    + intros [= <-]. finish_order.
Qed.

Lemma splay_bst (t t' : tree) (k : Z) :
  bst t -> splay t k = Ok t' -> bst t'.
Proof.
  intros Hb E. destruct (splay_items t k) as (s & Es & Hi & _).
  rewrite E in Es. injection Es as <-. exact (bst_items _ _ Hi Hb).
Qed.

Lemma bst_root_only (k v : Z) (l r : tree) :
  bst (Node k v l r) -> ~ In k (keys l) /\ ~ In k (keys r).
Proof.
  simpl. intros (Hl & Hr & _). split; intros Hin.
  - apply (all_keys_In _ _ _ Hl) in Hin. lia.
  - apply (all_keys_In _ _ _ Hr) in Hin. lia.
Qed.

(** In a search tree a splay brings a present key to the root. *)
Lemma splay_present (t : tree) (k : Z) :
  bst t -> In k (keys t) ->
  exists v l r, splay t k = Ok (Node k v l r) /\
                items (Node k v l r) = items t.
Proof.
  intros Hb Hin.
  destruct (splay_items t k) as (t' & E & Hi & _).
  pose proof (splay_neighbour t k Hb t' E) as Hn.
  pose proof (bst_items _ _ Hi Hb) as Hb'.
  unfold keys in Hin. rewrite <- Hi in Hin. fold (keys t') in Hin.
  destruct t' as [|rk rv l r]; [contradiction|].
  destruct (Z.eq_dec rk k) as [->|Hne]; [eauto|].
  exfalso. rewrite keys_node in Hin. simpl in Hb', Hn.
  destruct Hb' as (Hl & Hr & _). destruct Hn as (Hn1 & Hn2).
  apply in_app_or in Hin. destruct Hin as [Hin|[Hin|Hin]]; [|lia|].
  - pose proof (all_keys_In _ _ _ Hl Hin) as H1. simpl in H1.
    pose proof (all_keys_In _ _ _ (Hn1 ltac:(lia)) Hin) as H2. simpl in H2. lia.
  - pose proof (all_keys_In _ _ _ Hr Hin) as H1. simpl in H1.
    pose proof (all_keys_In _ _ _ (Hn2 ltac:(lia)) Hin) as H2. simpl in H2. lia.
Qed.

(** ** search and insert on a search tree *)

Lemma search_present (t : tree) (k : Z) :
  bst t -> In k (keys t) ->
  exists v l r, search k t = Ok (Some v, Node k v l r) /\
                items (Node k v l r) = items t.
Proof.
  intros Hb Hin. destruct (splay_present t k Hb Hin) as (v & l & r & E & Hi).
  exists v, l, r. unfold search. rewrite E. simpl. now rewrite Z.eqb_refl.
Qed.

Lemma search_absent (t : tree) (k : Z) :
  ~ In k (keys t) ->
  exists t', search k t = Ok (None, t') /\ items t' = items t /\
             is_none t' = is_none t.
Proof.
  intros Hn. destruct (splay_items t k) as (t' & E & Hi & Hnone).
  exists t'. unfold search. rewrite E. simpl.
  destruct t' as [|rk rv l r]; [auto|].
  destruct (rk =? k) eqn:Ek; [|auto].
  exfalso. apply Hn. apply Z.eqb_eq in Ek. subst rk.
  unfold keys. rewrite <- Hi. fold (keys (Node k rv l r)).
  rewrite keys_node. apply in_or_app. right. now left.
Qed.

Lemma in_items_keys (t : tree) (k v : Z) :
  In (k, v) (items t) -> In k (keys t).
Proof. intros H. unfold keys. now apply (in_map fst) in H. Qed.

(** [search] returns, leaves the entries as they are, and hits exactly
    on the keys present. *)
Lemma search_spec (t : tree) (k : Z) :
  bst t ->
  exists res t', search k t = Ok (res, t') /\ items t' = items t /\
    match res with
    | Some v => In (k, v) (items t)
    | None => ~ In k (keys t)
    end.
Proof.
  intros Hb. destruct (in_dec Z.eq_dec k (keys t)) as [Hin|Hn].
  - destruct (search_present t k Hb Hin) as (v & l & r & E & Hi).
    exists (Some v), (Node k v l r). repeat split; auto.
    rewrite <- Hi. simpl. apply in_or_app. right. now left.
  - destruct (search_absent t k Hn) as (t' & E & Hi & _).
    exists None, t'. auto.
Qed.

(** [insert] returns with the pair at the root, whatever the tree. *)
Lemma insert_root (t : tree) (k v : Z) :
  exists l r, insert k v t = Ok (tt, Node k v l r).
Proof.
  unfold insert. destruct t as [|tk tv tl tr]; [eauto|].
  destruct (splay_items (Node tk tv tl tr) k) as (t' & -> & _ & Hnone).
  destruct t' as [|rk rv l r]; [discriminate|]. simpl.
  destruct (rk =? k) eqn:Ek.
  - apply Z.eqb_eq in Ek. subst. eauto.
  - destruct (k <? rk); eauto.
Qed.

(** On a search tree [insert] keeps the invariant, binds the key to the
    value and leaves every other entry as it is. *)
Lemma insert_spec (t : tree) (k v : Z) :
  bst t ->
  exists t', insert k v t = Ok (tt, t') /\ bst t' /\
    forall k' v', In (k', v') (items t') <->
                  (k' = k /\ v' = v) \/ (k' <> k /\ In (k', v') (items t)).
Proof.
  intros Hb. unfold insert. destruct t as [|tk tv tl tr].
  { eexists. split; [reflexivity|]. split; [simpl; tauto|].
    intros k' v'. simpl. intuition congruence. }
  remember (Node tk tv tl tr) as t eqn:Et.
  destruct (splay_items t k) as (t' & E & Hi & Hnone).
  pose proof (splay_neighbour t k Hb t' E) as Hn.
  pose proof (bst_items _ _ Hi Hb) as Hb'.
  rewrite E. simpl. rewrite <- Hi. rewrite Et in Hnone. clear E Hi Hb Et.
  destruct t' as [|rk rv l r]; [discriminate|].
  pose proof (bst_root_only _ _ _ _ Hb') as (Hkl & Hkr).
  simpl in Hb', Hn. destruct Hb' as (Hl & Hr & Bl & Br).
  destruct Hn as (Hn1 & Hn2).
  assert (Hlk : forall x y, In (x, y) (items l) -> x < rk).
  { intros x y Hx. apply in_items_keys in Hx.
    exact (all_keys_In _ _ _ Hl Hx). }
  assert (Hrk : forall x y, In (x, y) (items r) -> rk < x).
  { intros x y Hx. apply in_items_keys in Hx.
    exact (all_keys_In _ _ _ Hr Hx). }
  destruct (rk =? k) eqn:Ek; [|destruct (k <? rk) eqn:El]; to_Z_order.
  - subst rk. eexists. split; [reflexivity|]. split; [simpl; tauto|].
    intros k' v'. simpl. rewrite !in_app_iff. simpl.
    split.
    + intros [H|[H|H]].
      * right. split; [|auto]. apply Hlk in H. lia.
      * left. now inversion H.
      * right. split; [|auto]. apply Hrk in H. lia.
    + intros [[-> ->]|[Hne [H|[H|H]]]]; auto.
      inversion H. lia.
  - assert (Hl' : all_keys (fun x => x < k) l) by (apply Hn1; lia).
    assert (Hlk' : forall x y, In (x, y) (items l) -> x < k).
    { intros x y Hx. apply in_items_keys in Hx.
      exact (all_keys_In _ _ _ Hl' Hx). }
    eexists. split; [reflexivity|]. split.
    + simpl. repeat split; auto; try lia. solve_all_keys.
    + intros k' v'. simpl. rewrite !in_app_iff. simpl.
      split.
      * intros [H|[H|[H|H]]].
        -- right. split; [apply Hlk' in H; lia|auto].
        -- left. now inversion H.
        -- right. split; [inversion H; lia|auto].
        -- right. split; [apply Hrk in H; lia|auto].
      * intros [[-> ->]|[Hne [H|[H|H]]]]; auto.
  - assert (Hr' : all_keys (fun x => k < x) r) by (apply Hn2; lia).
    assert (Hrk' : forall x y, In (x, y) (items r) -> k < x).
    { intros x y Hx. apply in_items_keys in Hx.
      exact (all_keys_In _ _ _ Hr' Hx). }
    eexists. split; [reflexivity|]. split.
    + simpl. repeat split; auto; try lia. solve_all_keys.
    + intros k' v'. simpl. rewrite !in_app_iff. simpl. split.
      * intros [[H|[H|H]]|[H|H]].
        -- right. split; [apply Hlk in H; lia|auto].
        -- right. split; [inversion H; lia|auto].
        -- contradiction.
        -- left. now inversion H.
        -- right. split; [apply Hrk' in H; lia|auto].
      * intros [[-> ->]|[Hne [H|[H|H]]]]; auto.
Qed.

Lemma keys_items (s t : tree) : items s = items t -> keys s = keys t.
Proof. unfold keys. now intros ->. Qed.

Lemma keys_in_items (t : tree) (k : Z) :
  In k (keys t) <-> exists v, In (k, v) (items t).
Proof.
  unfold keys. rewrite in_map_iff. split.
  - intros ([k' v] & E & H). simpl in E. subst. eauto.
  - intros (v & H). now exists (k, v).
Qed.

Lemma count_nodes_items (t : tree) : count_nodes t = length (items t).
Proof.
  induction t as [|k v l IHl r IHr]; [reflexivity|].
  simpl. rewrite length_app. simpl. lia.
Qed.

(** ** The reference recurrence *)

Lemma fib_loop_step (n : nat) (a b : Z) :
  fib_loop (S (S n)) a b = fib_loop (S n) a b + fib_loop n a b.
Proof.
  revert a b. induction n as [|n IH]; intros a b.
  - simpl. lia.
  - change (fib_loop (S (S (S n))) a b) with (fib_loop (S (S n)) b (a + b)).
    rewrite IH. reflexivity.
Qed.

Lemma fib_iter_0 : fib_iter 0 = 0.
Proof. reflexivity. Qed.

Lemma fib_iter_1 : fib_iter 1 = 1.
Proof. reflexivity. Qed.

Lemma fib_iter_rec (k : Z) :
  2 <= k -> fib_iter k = fib_iter (k - 1) + fib_iter (k - 2).
Proof.
  intros Hk. unfold fib_iter.
  replace (Z.to_nat k) with (S (S (Z.to_nat (k - 2)))) by lia.
  replace (Z.to_nat (k - 1)) with (S (Z.to_nat (k - 2))) by lia.
  apply fib_loop_step.
Qed.

(** ** The fill loop *)

Lemma memo_items (s t : tree) : items s = items t -> memo t -> memo s.
Proof. unfold memo. now intros ->. Qed.

Lemma filled_below_items (k : Z) (s t : tree) :
  items s = items t -> filled_below k t -> filled_below k s.
Proof. unfold filled_below. intros E. now rewrite (keys_items _ _ E). Qed.

Lemma filled_below_insert (k v : Z) (t t' : tree) :
  (forall k' v', In (k', v') (items t') <->
                 (k' = k /\ v' = v) \/ (k' <> k /\ In (k', v') (items t))) ->
  filled_below k t -> filled_below (k + 1) t'.
Proof.
  intros Hins Hf j Hj. apply keys_in_items.
  destruct (Z.eq_dec j k) as [->|Hne].
  - exists v. apply Hins. auto.
  - destruct (proj1 (keys_in_items t j) (Hf j ltac:(lia))) as (w & Hw).
    exists w. apply Hins. auto.
Qed.

Lemma memo_insert (k v : Z) (t t' : tree) :
  (forall k' v', In (k', v') (items t') <->
                 (k' = k /\ v' = v) \/ (k' <> k /\ In (k', v') (items t))) ->
  v = fib_iter k -> memo t -> memo t'.
Proof.
  intros Hins Hv Hm k' v' Hin Hk'. apply Hins in Hin.
  destruct Hin as [[-> ->]|[_ Hin]]; auto.
Qed.

(** A lookup of a stored index in the loop hits, with the stored value. *)
Lemma search_stored (t : tree) (k : Z) :
  bst t -> In k (keys t) ->
  exists a t', search k t = Ok (Some a, t') /\ items t' = items t /\
               In (k, a) (items t).
Proof.
  intros Hb Hin. destruct (search_spec t k Hb) as ([a|] & t' & E & Hi & Hres).
  - eauto.
  - contradiction.
Qed.

(** One turn of the loop at index [k], all smaller indices being stored. *)
Lemma fill_spec (t : tree) (k : Z) :
  bst t -> 0 <= k -> filled_below k t ->
  exists t', fill k t = Ok (tt, t') /\ bst t' /\ filled_below (k + 1) t' /\
             (memo t -> memo t').
Proof.
  intros Hb Hk Hf. unfold fill, bindM.
  destruct (search_spec t k Hb) as (res & t1 & -> & Hi1 & Hres).
  pose proof (bst_items _ _ Hi1 Hb) as Hb1.
  pose proof (filled_below_items _ _ _ Hi1 Hf) as Hf1.
  destruct res as [v|].
  - exists t1. unfold ret. repeat split; auto.
    + intros j Hj. destruct (Z.eq_dec j k) as [->|Hne].
      * rewrite (keys_items _ _ Hi1). eapply in_items_keys; eauto.
      * apply Hf1. lia.
    + apply memo_items; auto.
  - destruct (k <? 2) eqn:E2; to_Z_order.
    + destruct (insert_spec t1 k k Hb1) as (t' & -> & Hb' & Hins).
      exists t'. repeat split; auto.
      * eapply filled_below_insert; eauto.
      * intros Hm. apply (memo_insert _ _ _ _ Hins).
        -- assert (k = 0 \/ k = 1) as [->| ->] by lia; reflexivity.
        -- apply (memo_items _ _ Hi1 Hm).
    + destruct (search_stored t1 (k - 1) Hb1 (Hf1 (k - 1) ltac:(lia)))
        as (a & t2 & -> & Hi2 & Ha).
      pose proof (bst_items _ _ Hi2 Hb1) as Hb2.
      pose proof (filled_below_items _ _ _ Hi2 Hf1) as Hf2.
      destruct (search_stored t2 (k - 2) Hb2 (Hf2 (k - 2) ltac:(lia)))
        as (b & t3 & -> & Hi3 & Hb3).
      pose proof (bst_items _ _ Hi3 Hb2) as Hbst3.
      pose proof (filled_below_items _ _ _ Hi3 Hf2) as Hf3.
      destruct (insert_spec t3 k (or_zero (Some a) + or_zero (Some b)) Hbst3)
        as (t' & -> & Hb' & Hins).
      exists t'. repeat split; auto.
      * eapply filled_below_insert; eauto.
      * intros Hm.
        pose proof (memo_items _ _ Hi1 Hm) as Hm1.
        pose proof (memo_items _ _ Hi2 Hm1) as Hm2.
        pose proof (memo_items _ _ Hi3 Hm2) as Hm3.
        apply (memo_insert _ _ _ _ Hins); [|exact Hm3].
        simpl. rewrite (Hm1 _ _ Ha), (Hm2 _ _ Hb3) by lia.
        symmetry. apply fib_iter_rec. lia.
Qed.

Lemma for_range_fill (count : nat) (lo : Z) (t : tree) :
  bst t -> 0 <= lo -> filled_below lo t ->
  exists t', for_range lo count fill t = Ok (tt, t') /\ bst t' /\
             filled_below (lo + Z.of_nat count) t' /\ (memo t -> memo t').
Proof.
  revert lo t. induction count as [|count IH]; intros lo t Hb Hlo Hf.
  - exists t. simpl. unfold ret. rewrite Z.add_0_r. auto.
  - destruct (fill_spec t lo Hb Hlo Hf) as (t1 & E1 & Hb1 & Hf1 & Hm1).
    destruct (IH (lo + 1) t1 Hb1 ltac:(lia) Hf1) as (t' & E' & Hb' & Hf' & Hm').
    exists t'. cbn [for_range]. unfold bindM at 1. rewrite E1.
    repeat split; auto.
    replace (lo + Z.of_nat (S count)) with (lo + 1 + Z.of_nat count) by lia.
    exact Hf'.
Qed.

(** The loop over [lo .. lo+a+b-1] is the loop over the first [a] indices
    followed by the loop over the others. *)
Lemma for_range_app (a b : nat) (lo : Z) (body : Z -> M unit) (t : tree) :
  for_range lo (a + b) body t
  = (for_range lo a body ;;; for_range (lo + Z.of_nat a) b body) t.
Proof.
  revert lo t. induction a as [|a IH]; intros lo t.
  - simpl. unfold bindM, ret. now rewrite Z.add_0_r.
  - cbn [for_range Nat.add]. unfold bindM.
    destruct (body lo t) as [[[] t1]|e]; [|reflexivity].
    rewrite IH. unfold bindM.
    replace (lo + 1 + Z.of_nat a) with (lo + Z.of_nat (S a)) by lia.
    reflexivity.
Qed.

Lemma splay_at_root (k v : Z) (l r : tree) :
  splay (Node k v l r) k = Ok (Node k v l r).
Proof. rewrite splay_unfold. unfold splay_body. now rewrite Z.eqb_refl. Qed.

Lemma search_at_root (k v : Z) (l r : tree) :
  search k (Node k v l r) = Ok (Some v, Node k v l r).
Proof.
  unfold search. rewrite splay_at_root. cbn [bind]. now rewrite Z.eqb_refl.
Qed.

Lemma search_items (t t' : tree) (k : Z) (res : option Z) :
  search k t = Ok (res, t') -> items t' = items t.
Proof.
  unfold search. destruct (splay_items t k) as (s & -> & Hi & _).
  cbn [bind]. destruct s as [|sk sv sl sr]; [|destruct (sk =? k)];
    intros [= _ <-]; exact Hi.
Qed.

Lemma search_returns (t : tree) (k : Z) :
  exists res t', search k t = Ok (res, t').
Proof.
  unfold search. destruct (splay_items t k) as (s & -> & _).
  cbn [bind]. destruct s as [|sk sv sl sr]; [|destruct (sk =? k)]; eauto.
Qed.

Lemma memo_Nil : memo Nil.
Proof. intros k v []. Qed.

(** The driver on a search tree that is a memo table of the recurrence:
    it returns, leaves such a tree, and for [n >= 0] its result is the
    value of the reference at [n]. *)
Lemma fibonacci_splay_memo (t : tree) (n : Z) :
  bst t -> memo t ->
  exists res t', fibonacci_splay n t = Ok (res, t') /\ bst t' /\ memo t' /\
                 (0 <= n -> res = Some (fib_iter n)).
Proof.
  intros Hb Hm. unfold fibonacci_splay, bindM.
  destruct (search_spec t n Hb) as (res & t0 & -> & Hi0 & Hres).
  pose proof (bst_items _ _ Hi0 Hb) as Hb0.
  pose proof (memo_items _ _ Hi0 Hm) as Hm0.
  destruct res as [h|].
  - exists (Some h), t0. unfold ret. repeat split; auto.
    intros Hn. now rewrite (Hm _ _ Hres Hn).
  - destruct (for_range_fill (Z.to_nat (n + 1)) 0 t0 Hb0 ltac:(lia))
      as (t1 & -> & Hb1 & Hf1 & Hm1).
    { intros j Hj. lia. }
    destruct (search_spec t1 n Hb1) as (res & t2 & -> & Hi2 & Hres2).
    exists res, t2. split; [reflexivity|].
    split; [exact (bst_items _ _ Hi2 Hb1)|].
    split; [exact (memo_items _ _ Hi2 (Hm1 Hm0))|].
    intros Hn. destruct res as [a|].
    + now rewrite (Hm1 Hm0 _ _ Hres2 Hn).
    + exfalso. apply Hres2, Hf1. lia.
Qed.

Lemma driver_calls_memo (ns : list Z) (t : tree) :
  bst t -> memo t ->
  exists t', driver_calls ns t = Ok (tt, t') /\ bst t' /\ memo t'.
Proof.
  revert t. induction ns as [|n ns IH]; intros t Hb Hm.
  - exists t. auto.
  - cbn [driver_calls]. unfold bindM at 1.
    destruct (fibonacci_splay_memo t n Hb Hm) as (res & t1 & -> & Hb1 & Hm1 & _).
    auto.
Qed.

Lemma do_calls_bst (cs : list call) (t : tree) :
  bst t -> exists t', do_calls cs t = Ok (tt, t') /\ bst t'.
Proof.
  revert t. induction cs as [|c cs IH]; intros t Hb.
  - exists t. auto.
  - cbn [do_calls]. unfold bindM at 1.
    destruct c as [k v|k]; cbn [do_call].
    + destruct (insert_spec t k v Hb) as (t1 & -> & Hb1 & _). auto.
    + unfold bindM at 1.
      destruct (search_spec t k Hb) as (res & t1 & -> & Hi & _).
      unfold ret. apply IH. exact (bst_items _ _ Hi Hb).
Qed.

(** * The claims *)

(** C1. After every sequence of [insert] and [search] calls on the empty
    tree, the calls have returned and the tree satisfies the search-tree
    invariant: at every node the keys of the left subtree are strictly
    smaller and those of the right subtree strictly greater than the
    node's key; no key occurs at two nodes. *)
Theorem calls_keep_bst (cs : list call) :
  exists t, do_calls cs Nil = Ok (tt, t) /\ bst t /\ NoDup (keys t).
Proof.
  destruct (do_calls_bst cs Nil I) as (t & E & Hb).
  exists t. auto using bst_NoDup.
Qed.

(** C2. Whatever the tree, [insert(k, v)] followed by [search(k)]
    returns [v]. *)
Theorem insert_then_search (t : tree) (k v : Z) :
  exists t1 t2,
    insert k v t = Ok (tt, t1) /\ search k t1 = Ok (Some v, t2).
Proof.
  destruct (insert_root t k v) as (l & r & E).
  exists (Node k v l r), (Node k v l r). split; [exact E|].
  apply search_at_root.
Qed.

(** C3. On a search tree that holds the key [k], [search(k)] leaves a
    root that is not [None] and whose key is [k]. *)
Theorem search_promotes_root (t : tree) (k : Z) :
  bst t -> In k (keys t) ->
  exists v l r, search k t = Ok (Some v, Node k v l r).
Proof.
  intros Hb Hin.
  destruct (search_present t k Hb Hin) as (v & l & r & E & _). eauto.
Qed.

Lemma search_promotes_root_witness :
  bst tree_3_5 /\ In 5 (keys tree_3_5) /\
  exists v l r, search 5 tree_3_5 = Ok (Some v, Node 5 v l r).
Proof.
  assert (Hb : bst tree_3_5) by (simpl; repeat split; lia).
  assert (Hin : In 5 (keys tree_3_5)) by (simpl; auto).
  exact (conj Hb (conj Hin (search_promotes_root tree_3_5 5 Hb Hin))).
Defined.

(** C4. In a tree built from the empty tree by any calls of the driver,
    the driver called with [n >= 0], and so with every [n] in 0..10000,
    returns the value that the iterative reference gives at [n]. *)
Theorem fibonacci_splay_correct (ns : list Z) (n : Z) :
  0 <= n ->
  exists t t',
    driver_calls ns Nil = Ok (tt, t) /\
    fibonacci_splay n t = Ok (Some (fib_iter n), t').
Proof.
  intros Hn.
  destruct (driver_calls_memo ns Nil I memo_Nil) as (t & E & Hb & Hm).
  destruct (fibonacci_splay_memo t n Hb Hm) as (res & t' & E' & _ & _ & Hres).
  exists t, t'. rewrite E', (Hres Hn). auto.
Qed.

Lemma fibonacci_splay_correct_witness :
  0 <= 20 /\
  exists t t',
    driver_calls [10; 3] Nil = Ok (tt, t) /\
    fibonacci_splay 20 t = Ok (Some (fib_iter 20), t').
Proof.
  assert (H20 : 0 <= 20) by lia.
  exact (conj H20 (fibonacci_splay_correct [10; 3] 20 H20)).
Defined.

(** C5 as stated, with the root key the present key closest to [k],
    fails: in the tree left by [insert(10, 10)] and
    [insert(1, 1)], [search(2)] misses and makes 10 the root, while the
    present key closest to 2 is 1. *)
Lemma closest_after_miss_fails :
  do_calls [Insert 10 10; Insert 1 1] Nil = Ok (tt, tree_1_10) /\
  bst tree_1_10 /\ ~ In 2 (keys tree_1_10) /\
  search 2 tree_1_10 = Ok (None, Node 10 10 (Node 1 1 Nil Nil) Nil) /\
  ~ closest_after_miss tree_1_10 2.
Proof.
  split; [reflexivity|].
  split; [repeat split; lia|].
  split; [intros [H|[H|[]]]; discriminate|].
  split; [reflexivity|].
  intros (rk & rv & l & r & E & Hc).
  injection E as <- _ _ _.
  specialize (Hc 1 (or_introl eq_refl)). simpl in Hc. lia.
Qed.

(** C5, amended. On a non-empty search tree that does not hold [k],
    [search(k)] returns the miss and leaves a root whose key is a key of
    the tree next to [k] in the order of the keys: the greatest key smaller
    than [k] or the least key greater than [k]. *)
Theorem search_miss_neighbour (t : tree) (k : Z) :
  bst t -> t <> Nil -> ~ In k (keys t) ->
  exists rk rv l r,
    search k t = Ok (None, Node rk rv l r) /\
    In rk (keys t) /\
    ((rk < k /\ forall x, In x (keys t) -> x < k -> x <= rk) \/
     (k < rk /\ forall x, In x (keys t) -> k < x -> rk <= x)).
Proof.
  intros Hb Hne Hn.
  destruct (search_absent t k Hn) as (t' & E & Hi & Hnone).
  assert (Es : splay t k = Ok t').
  { unfold search in E. destruct (splay t k) as [s|e]; [|discriminate].
    simpl in E. destruct s as [|sk sv sl sr]; [congruence|].
    destruct (sk =? k); congruence. }
  pose proof (splay_neighbour t k Hb t' Es) as Hnb.
  pose proof (bst_items _ _ Hi Hb) as Hb'.
  rewrite <- (keys_items _ _ Hi) in *.
  destruct t' as [|rk rv l r].
  { destruct t; [congruence|discriminate]. }
  exists rk, rv, l, r. split; [exact E|].
  rewrite keys_node in *. split; [apply in_or_app; right; now left|].
  simpl in Hb', Hnb. destruct Hb' as (Hl & Hr & _). destruct Hnb as (Hn1 & Hn2).
  assert (Hrk : rk <> k).
  { intros ->. apply Hn. apply in_or_app. right. now left. }
  destruct (Z.lt_ge_cases rk k) as [Hlt|Hge].
  - left. split; [exact Hlt|]. intros x Hx Hxk.
    apply in_app_or in Hx. destruct Hx as [Hx|[Hx|Hx]]; [|lia|].
    + pose proof (all_keys_In _ _ _ Hl Hx) as H. simpl in H. lia.
    + pose proof (all_keys_In _ _ _ (Hn2 Hlt) Hx) as H. simpl in H. lia.
  - right. split; [lia|]. intros x Hx Hxk.
    apply in_app_or in Hx. destruct Hx as [Hx|[Hx|Hx]]; [|lia|].
    + pose proof (all_keys_In _ _ _ (Hn1 ltac:(lia)) Hx) as H. simpl in H. lia.
    + pose proof (all_keys_In _ _ _ Hr Hx) as H. simpl in H. lia.
Qed.

Lemma search_miss_neighbour_witness :
  bst tree_1_10 /\ tree_1_10 <> Nil /\ ~ In 2 (keys tree_1_10) /\
  exists rk rv l r,
    search 2 tree_1_10 = Ok (None, Node rk rv l r) /\
    In rk (keys tree_1_10) /\
    ((rk < 2 /\ forall x, In x (keys tree_1_10) -> x < 2 -> x <= rk) \/
     (2 < rk /\ forall x, In x (keys tree_1_10) -> 2 < x -> rk <= x)).
Proof.
  assert (Hb : bst tree_1_10) by (simpl; repeat split; lia).
  assert (Hne : tree_1_10 <> Nil) by discriminate.
  assert (Hn : ~ In 2 (keys tree_1_10))
    by (simpl; intros [H|[H|[]]]; discriminate).
  exact (conj Hb (conj Hne (conj Hn
           (search_miss_neighbour tree_1_10 2 Hb Hne Hn)))).
Defined.

(** C6. Whatever the tree, after [insert(k, v1)] and [insert(k, v2)],
    [search(k)] returns [v2], and the second [insert] leaves the number
    of nodes as it was. *)
Theorem insert_twice_updates (t : tree) (k v1 v2 : Z) :
  exists t1 t2 t3,
    insert k v1 t = Ok (tt, t1) /\
    insert k v2 t1 = Ok (tt, t2) /\
    search k t2 = Ok (Some v2, t3) /\
    count_nodes t2 = count_nodes t1.
Proof.
  destruct (insert_root t k v1) as (l & r & E).
  exists (Node k v1 l r), (Node k v2 l r), (Node k v2 l r).
  split; [exact E|]. split; [|split].
  - unfold insert. rewrite splay_at_root. cbn [bind].
    now rewrite Z.eqb_refl.
  - apply search_at_root.
  - reflexivity.
Qed.

(** C7. In the driver, entered on a search tree [t] on which [search(n)]
    misses, the fill loop reaches every index [k] with [2 <= k <= n] in a
    tree [tk]; the loop from there on is the turn at [k] followed by the
    turns at the later indices; and when [search(k)] misses in [tk], the
    lookups [search(k-1)] and [search(k-2)] that follow both hit, so
    neither operand falls back to 0. *)
Theorem fill_lookups_hit (t t0 : tree) (n k : Z) :
  bst t -> search n t = Ok (None, t0) -> 2 <= k <= n ->
  exists tk,
    for_range 0 (Z.to_nat k) fill t0 = Ok (tt, tk) /\
    for_range 0 (Z.to_nat (n + 1)) fill t0
      = (fill k ;;; for_range (k + 1) (Z.to_nat (n - k)) fill) tk /\
    forall t1, search k tk = Ok (None, t1) ->
      exists a t2 b t3,
        search (k - 1) t1 = Ok (Some a, t2) /\
        search (k - 2) t2 = Ok (Some b, t3).
Proof.
  intros Hb E0 Hk.
  pose proof (bst_items _ _ (search_items _ _ _ _ E0) Hb) as Hb0.
  destruct (for_range_fill (Z.to_nat k) 0 t0 Hb0 ltac:(lia))
    as (tk & Ek & Hbk & Hfk & _).
  { intros j Hj. lia. }
  replace (0 + Z.of_nat (Z.to_nat k)) with k in Hfk by lia.
  exists tk. split; [exact Ek|]. split.
  - replace (Z.to_nat (n + 1))
      with (Z.to_nat k + S (Z.to_nat (n - k)))%nat by lia.
    rewrite for_range_app. unfold bindM at 1. rewrite Ek.
    cbn [for_range].
    replace (0 + Z.of_nat (Z.to_nat k)) with k by lia. reflexivity.
  - intros t1 E1.
    pose proof (search_items _ _ _ _ E1) as Hi1.
    pose proof (bst_items _ _ Hi1 Hbk) as Hb1.
    pose proof (filled_below_items _ _ _ Hi1 Hfk) as Hf1.
    destruct (search_stored t1 (k - 1) Hb1 (Hf1 (k - 1) ltac:(lia)))
      as (a & t2 & Ea & Hi2 & _).
    pose proof (bst_items _ _ Hi2 Hb1) as Hb2.
    pose proof (filled_below_items _ _ _ Hi2 Hf1) as Hf2.
    destruct (search_stored t2 (k - 2) Hb2 (Hf2 (k - 2) ltac:(lia)))
      as (b & t3 & Eb & _).
    eauto 6.
Qed.

Lemma fill_lookups_hit_witness :
  bst Nil /\ search 3 Nil = Ok (None, Nil) /\ 2 <= 2 <= 3 /\
  exists tk,
    for_range 0 (Z.to_nat 2) fill Nil = Ok (tt, tk) /\
    for_range 0 (Z.to_nat (3 + 1)) fill Nil
      = (fill 2 ;;; for_range (2 + 1) (Z.to_nat (3 - 2)) fill) tk /\
    forall t1, search 2 tk = Ok (None, t1) ->
      exists a t2 b t3,
        search (2 - 1) t1 = Ok (Some a, t2) /\
        search (2 - 2) t2 = Ok (Some b, t3).
Proof.
  assert (Hk : 2 <= 2 <= 3) by lia.
  exact (conj I (conj eq_refl (conj Hk
           (fill_lookups_hit Nil Nil 3 2 I eq_refl Hk)))).
Defined.

(** C8. On a search tree that holds the key [k], splaying on [k] a second
    time gives back the tree of the first splay unchanged. *)
Theorem splay_hit_idempotent (t : tree) (k : Z) :
  bst t -> In k (keys t) ->
  exists t1, splay t k = Ok t1 /\ splay t1 k = Ok t1.
Proof.
  intros Hb Hin. destruct (splay_present t k Hb Hin) as (v & l & r & E & _).
  exists (Node k v l r). split; [exact E|apply splay_at_root].
Qed.

Lemma splay_hit_idempotent_witness :
  bst tree_5_3_4 /\ In 4 (keys tree_5_3_4) /\
  exists t1, splay tree_5_3_4 4 = Ok t1 /\ splay t1 4 = Ok t1.
Proof.
  assert (Hb : bst tree_5_3_4) by (simpl; repeat split; lia).
  assert (Hin : In 4 (keys tree_5_3_4)) by (simpl; auto).
  exact (conj Hb (conj Hin (splay_hit_idempotent tree_5_3_4 4 Hb Hin))).
Defined.

(** C9. Whatever the tree and the key, [search] returns and leaves the
    (key, value) pairs of the tree, read in symmetric order, exactly as
    they were, and so the number of nodes too: only the shape changes. *)
Theorem search_keeps_items (t : tree) (k : Z) :
  exists res t',
    search k t = Ok (res, t') /\ items t' = items t /\
    count_nodes t' = count_nodes t.
Proof.
  destruct (search_returns t k) as (res & t' & E). exists res, t'.
  pose proof (search_items _ _ _ _ E) as Hi.
  rewrite !count_nodes_items, Hi. auto.
Qed.

(** C10. [_splay] only calls itself on subtrees two levels below the root
    it was given, each of height smaller by two at least; run with more
    than half the height of the tree as bound on the depth of nested
    calls it returns a tree, the one of the structural definition; and
    [search] and [insert], which call it once, return as well. *)
Theorem splay_terminates (t : tree) (k v : Z) (fuel : nat) :
  (height t < 2 * fuel)%nat ->
  (forall rec1 rec2 : tree -> Z -> result tree,
     (forall s, grandchild s t -> rec1 s k = rec2 s k) ->
     splay_body rec1 t k = splay_body rec2 t k) /\
  (forall s, grandchild s t -> (height s + 2 <= height t)%nat) /\
  (exists t', splay_fuel fuel t k = Ok t' /\ splay t k = Ok t') /\
  (exists res t', search k t = Ok (res, t')) /\
  (exists t', insert k v t = Ok (tt, t')).
Proof.
  intros Hf. split; [|split; [|split; [|split]]].
  - intros rec1 rec2. apply splay_body_ext.
  - intros s Hs. apply grandchild_height in Hs. lia.
  - destruct (splay_items t k) as (t' & E & _).
    exists t'. now rewrite splay_fuel_enough.
  - apply search_returns.
  - destruct (insert_root t k v) as (l & r & E). eauto.
Qed.

Lemma splay_terminates_witness :
  (height tree_5_3_4 < 2 * 2)%nat /\
  exists t', splay_fuel 2 tree_5_3_4 4 = Ok t' /\ splay tree_5_3_4 4 = Ok t'.
Proof.
  assert (Hf : (height tree_5_3_4 < 2 * 2)%nat) by (simpl; lia).
  exact (conj Hf (proj1 (proj2 (proj2
           (splay_terminates tree_5_3_4 4 0 2 Hf))))).
Defined.

(** * Further properties of the code *)

(** ** Rotations *)

(** X1. The two rotations undo each other: rotating left the result of a
    right rotation gives back the tree, and the other way round. *)
Theorem rotations_inverse (x y : tree) :
  (rotate_right x = Ok y -> rotate_left y = Ok x) /\
  (rotate_left x = Ok y -> rotate_right y = Ok x).
Proof.
  split; intros H.
  - destruct x as [|xk xv [|yk yv yl yr] xr]; try discriminate.
    injection H as <-. reflexivity.
  - destruct x as [|xk xv xl [|yk yv yl yr]]; try discriminate.
    injection H as <-. reflexivity.
Qed.

Lemma rotations_inverse_witness :
  rotate_right tree_5_3_4 = Ok (Node 3 30 Nil (Node 5 50 (Node 4 40 Nil Nil) Nil)) /\
  rotate_left (Node 3 30 Nil (Node 5 50 (Node 4 40 Nil Nil) Nil))
  = Ok tree_5_3_4.
Proof.
  assert (H : rotate_right tree_5_3_4
              = Ok (Node 3 30 Nil (Node 5 50 (Node 4 40 Nil Nil) Nil)))
    by reflexivity.
  exact (conj H (proj1 (rotations_inverse _ _) H)).
Defined.

(** X2. [_rotate_right] raises exactly when its argument or the left child
    of its argument is [None]; when it returns, the former left child is
    the root, the entries in symmetric order are as before, and a search
    tree stays one. *)
Theorem rotate_right_spec (x : tree) :
  match x with
  | Nil | Node _ _ Nil _ => rotate_right x = Raise AttributeError
  | Node _ _ (Node yk yv _ _) _ =>
    exists l r, rotate_right x = Ok (Node yk yv l r) /\
                items (Node yk yv l r) = items x /\
                (bst x -> bst (Node yk yv l r))
  end.
Proof.
  destruct x as [|xk xv [|yk yv yl yr] xr]; try reflexivity.
  eexists _, _. split; [reflexivity|].
  assert (Hi : items (Node yk yv yl (Node xk xv yr xr))
               = items (Node xk xv (Node yk yv yl yr) xr)).
  { simpl. now rewrite <- app_assoc. }
  split; [exact Hi|]. apply bst_items. exact Hi.
Qed.

(** X3. [_rotate_left] raises exactly when its argument or the right child
    of its argument is [None]; when it returns, the former right child is
    the root, the entries in symmetric order are as before, and a search
    tree stays one. *)
Theorem rotate_left_spec (x : tree) :
  match x with
  | Nil | Node _ _ _ Nil => rotate_left x = Raise AttributeError
  | Node _ _ _ (Node yk yv _ _) =>
    exists l r, rotate_left x = Ok (Node yk yv l r) /\
                items (Node yk yv l r) = items x /\
                (bst x -> bst (Node yk yv l r))
  end.
Proof.
  destruct x as [|xk xv xl [|yk yv yl yr]]; try reflexivity.
  eexists _, _. split; [reflexivity|].
  assert (Hi : items (Node yk yv (Node xk xv xl yl) yr)
               = items (Node xk xv xl (Node yk yv yl yr))).
  { simpl. now rewrite <- app_assoc. }
  split; [exact Hi|]. apply bst_items. exact Hi.
Qed.

(** ** search and insert *)

Lemma fst_functional {A B : Type} (l : list (A * B)) (k : A) (v v' : B) :
  NoDup (map fst l) -> In (k, v) l -> In (k, v') l -> v = v'.
Proof.
  induction l as [|[a b] l IH]; simpl; [contradiction|].
  intros Hnd. inversion Hnd as [|? ? Hnot Hnd']; subst.
  intros [H1|H1] [H2|H2].
  - congruence.
  - injection H1 as -> ->. exfalso. apply Hnot.
    now apply (in_map fst) in H2.
  - injection H2 as -> ->. exfalso. apply Hnot.
    now apply (in_map fst) in H1.
  - auto.
Qed.

Lemma bst_one_value (t : tree) (k v v' : Z) :
  bst t -> In (k, v) (items t) -> In (k, v') (items t) -> v = v'.
Proof. intros Hb. apply fst_functional. exact (bst_NoDup t Hb). Qed.

(** X4. On a search tree [search(k)] returns the value stored with [k]
    when [k] is stored and [None] exactly when it is not. *)
Theorem search_finds_stored (t : tree) (k : Z) :
  bst t ->
  exists res t',
    search k t = Ok (res, t') /\
    (forall v, res = Some v <-> In (k, v) (items t)) /\
    (res = None <-> ~ In k (keys t)).
Proof.
  intros Hb. destruct (search_spec t k Hb) as (res & t' & E & _ & Hres).
  exists res, t'. split; [exact E|]. destruct res as [a|].
  - split.
    + intros v. split.
      * now intros [= <-].
      * intros Hv. f_equal. exact (bst_one_value t k a v Hb Hres Hv).
    + split; [discriminate|]. intros Hn. exfalso. apply Hn.
      exact (in_items_keys _ _ _ Hres).
  - split.
    + intros v. split; [discriminate|].
      intros Hv. exfalso. apply Hres. exact (in_items_keys _ _ _ Hv).
    + tauto.
Qed.

Lemma search_finds_stored_witness :
  bst tree_3_5 /\
  exists res t',
    search 5 tree_3_5 = Ok (res, t') /\
    (forall v, res = Some v <-> In (5, v) (items tree_3_5)) /\
    (res = None <-> ~ In 5 (keys tree_3_5)).
Proof.
  assert (Hb : bst tree_3_5) by (simpl; repeat split; lia).
  exact (conj Hb (search_finds_stored tree_3_5 5 Hb)).
Defined.

(** X5. On a search tree [insert(k, v)] does not change what a search for
    any other key returns. *)
Theorem insert_keeps_other_keys (t : tree) (k v k' : Z) :
  bst t -> k' <> k ->
  exists t1 res t2 t3,
    insert k v t = Ok (tt, t1) /\
    search k' t = Ok (res, t2) /\
    search k' t1 = Ok (res, t3).
Proof.
  intros Hb Hne.
  destruct (insert_spec t k v Hb) as (t1 & E1 & Hb1 & Hins).
  destruct (search_spec t k' Hb) as (res & t2 & E2 & _ & Hres).
  destruct (search_spec t1 k' Hb1) as (res1 & t3 & E3 & _ & Hres1).
  exists t1, res, t2, t3. split; [exact E1|]. split; [exact E2|].
  rewrite E3. do 2 f_equal.
  destruct res as [a|], res1 as [b|]; auto.
  - f_equal. apply (bst_one_value t1 k' b a Hb1 Hres1).
    apply Hins. auto.
  - exfalso. apply Hres1. apply (in_items_keys _ _ a). apply Hins. auto.
  - exfalso. apply Hins in Hres1. destruct Hres1 as [[-> _]|[_ H]].
    + congruence.
    + apply Hres. exact (in_items_keys _ _ _ H).
Qed.

Lemma insert_keeps_other_keys_witness :
  bst tree_3_5 /\ 5 <> 4 /\
  exists t1 res t2 t3,
    insert 4 40 tree_3_5 = Ok (tt, t1) /\
    search 5 tree_3_5 = Ok (res, t2) /\
    search 5 t1 = Ok (res, t3).
Proof.
  assert (Hb : bst tree_3_5) by (simpl; repeat split; lia).
  assert (Hne : 5 <> 4) by discriminate.
  exact (conj Hb (conj Hne (insert_keeps_other_keys tree_3_5 4 40 5 Hb Hne))).
Defined.

(** X6. On a search tree [insert(k, v)] adds one node when [k] is not
    stored and none when it is. *)
Theorem insert_node_count (t : tree) (k v : Z) :
  bst t ->
  exists t',
    insert k v t = Ok (tt, t') /\
    (In k (keys t) -> count_nodes t' = count_nodes t) /\
    (~ In k (keys t) -> count_nodes t' = S (count_nodes t)).
Proof.
  intros Hb. unfold insert. destruct t as [|tk tv tl tr].
  { eexists. split; [reflexivity|]. split; [contradiction|reflexivity]. }
  remember (Node tk tv tl tr) as t eqn:Et.
  destruct (splay_items t k) as (t' & E & Hi & Hnone).
  rewrite E. cbn [bind]. rewrite Et in Hnone.
  destruct t' as [|rk rv l r]; [discriminate|].
  assert (Hc : count_nodes (Node rk rv l r) = count_nodes t)
    by (now rewrite !count_nodes_items, Hi).
  destruct (rk =? k) eqn:Ek; to_Z_order.
  - subst rk. eexists. split; [reflexivity|].
    split; [intros _; exact Hc|]. intros Hn. exfalso. apply Hn.
    rewrite <- (keys_items _ _ Hi), keys_node.
    apply in_or_app. right. now left.
  - assert (Hn : ~ In k (keys t)).
    { intros Hin. destruct (splay_present t k Hb Hin) as (v0 & l0 & r0 & E0 & _).
      congruence. }
    simpl in Hc. destruct (k <? rk); eexists; (split; [reflexivity|]);
      (split; [contradiction|]); intros _; simpl; lia.
Qed.

Lemma insert_node_count_witness :
  bst tree_3_5 /\
  exists t',
    insert 4 40 tree_3_5 = Ok (tt, t') /\
    (In 4 (keys tree_3_5) -> count_nodes t' = count_nodes tree_3_5) /\
    (~ In 4 (keys tree_3_5) -> count_nodes t' = S (count_nodes tree_3_5)).
Proof.
  assert (Hb : bst tree_3_5) by (simpl; repeat split; lia).
  exact (conj Hb (insert_node_count tree_3_5 4 40 Hb)).
Defined.

(** ** fibonacci_splay *)

(** X7. Called with a negative [n] that the tree does not hold, the driver
    returns [None]: the fill loop runs over the empty range and both
    searches miss. The entries of the tree are as before. *)
Theorem fibonacci_splay_negative (t : tree) (n : Z) :
  n < 0 -> ~ In n (keys t) ->
  exists t', fibonacci_splay n t = Ok (None, t') /\ items t' = items t.
Proof.
  intros Hn Hnot. unfold fibonacci_splay, bindM.
  destruct (search_absent t n Hnot) as (t0 & -> & Hi0 & _).
  replace (Z.to_nat (n + 1)) with O by lia. cbn [for_range]. unfold ret.
  destruct (search_absent t0 n) as (t1 & -> & Hi1 & _).
  { now rewrite (keys_items _ _ Hi0). }
  exists t1. split; [reflexivity|congruence].
Qed.

Lemma fibonacci_splay_negative_witness :
  -1 < 0 /\ ~ In (-1) (keys tree_3_5) /\
  exists t', fibonacci_splay (-1) tree_3_5 = Ok (None, t') /\
             items t' = items tree_3_5.
Proof.
  assert (Hn : -1 < 0) by lia.
  assert (Hnot : ~ In (-1) (keys tree_3_5))
    by (simpl; intros [H|[H|[]]]; discriminate).
  exact (conj Hn (conj Hnot (fibonacci_splay_negative tree_3_5 (-1) Hn Hnot))).
Defined.

Lemma fill_new_key (t t' : tree) (k : Z) :
  bst t -> fill k t = Ok (tt, t') ->
  forall j, In j (keys t') -> In j (keys t) \/ j = k.
Proof.
  intros Hb. unfold fill, bindM.
  destruct (search_spec t k Hb) as (res & t1 & -> & Hi1 & _).
  pose proof (bst_items _ _ Hi1 Hb) as Hb1.
  assert (Hins : forall x u, bst u -> items u = items t ->
            insert k x u = Ok (tt, t') ->
            forall j, In j (keys t') -> In j (keys t) \/ j = k).
  { intros x u Hbu Hiu E j Hj.
    destruct (insert_spec u k x Hbu) as (u' & Eu & _ & Hin).
    rewrite Eu in E. injection E as <-.
    apply keys_in_items in Hj. destruct Hj as (w & Hw).
    apply Hin in Hw. destruct Hw as [[-> _]|[_ Hw]]; [now right|].
    left. rewrite <- (keys_items _ _ Hiu). exact (in_items_keys _ _ _ Hw). }
  destruct res as [v|].
  - unfold ret. intros [= <-] j Hj. left. now rewrite <- (keys_items _ _ Hi1).
  - destruct (k <? 2).
    + apply Hins; auto.
    + destruct (search_spec t1 (k - 1) Hb1) as (a & t2 & -> & Hi2 & _).
      pose proof (bst_items _ _ Hi2 Hb1) as Hb2.
      destruct (search_spec t2 (k - 2) Hb2) as (b & t3 & -> & Hi3 & _).
      apply Hins; [exact (bst_items _ _ Hi3 Hb2)|congruence].
Qed.

Lemma for_range_new_keys (count : nat) (lo : Z) (t t' : tree) :
  bst t -> 0 <= lo -> filled_below lo t ->
  for_range lo count fill t = Ok (tt, t') ->
  forall j, In j (keys t') ->
            In j (keys t) \/ lo <= j < lo + Z.of_nat count.
Proof.
  revert lo t. induction count as [|count IH]; intros lo t Hb Hlo Hf.
  - simpl. unfold ret. intros [= <-] j Hj. now left.
  - cbn [for_range]. unfold bindM at 1.
    destruct (fill_spec t lo Hb Hlo Hf) as (t1 & E1 & Hb1 & Hf1 & _).
    rewrite E1. intros E j Hj.
    destruct (IH (lo + 1) t1 Hb1 ltac:(lia) Hf1 E j Hj) as [H|H]; [|lia].
    destruct (fill_new_key t t1 lo Hb E1 j H) as [H'|H']; [now left|lia].
Qed.

(** X8. Called on the empty tree with [n >= 0], the driver returns the
    value of the recurrence at [n] and leaves a tree whose entries are
    exactly the pairs of an index [k] in 0..n and the value of the
    recurrence at [k]. *)
Theorem fibonacci_splay_fills (n : Z) :
  0 <= n ->
  exists t',
    fibonacci_splay n Nil = Ok (Some (fib_iter n), t') /\
    forall k v, In (k, v) (items t') <-> 0 <= k <= n /\ v = fib_iter k.
Proof.
  intros Hn. unfold fibonacci_splay, bindM.
  change (search n Nil) with (@Ok (option Z * tree) (None, Nil)). cbv iota beta.
  assert (Hf0 : filled_below 0 Nil) by (intros j Hj; lia).
  destruct (for_range_fill (Z.to_nat (n + 1)) 0 Nil I ltac:(lia) Hf0)
    as (t1 & E1 & Hb1 & Hf1 & Hm1).
  pose proof (for_range_new_keys _ 0 Nil t1 I ltac:(lia) Hf0 E1) as Hk1.
  rewrite E1.
  destruct (search_stored t1 n Hb1) as (a & t2 & -> & Hi2 & Ha).
  { apply Hf1. lia. }
  pose proof (Hm1 memo_Nil) as Hm.
  exists t2. rewrite (Hm _ _ Ha Hn). split; [reflexivity|].
  intros k v. rewrite Hi2. split.
  - intros Hkv.
    destruct (Hk1 k (in_items_keys _ _ _ Hkv)) as [[]|Hk].
    split; [lia|]. apply (Hm _ _ Hkv). lia.
  - intros (Hk & ->).
    destruct (proj1 (keys_in_items t1 k) (Hf1 k ltac:(lia))) as (w & Hw).
    now rewrite <- (Hm _ _ Hw (proj1 Hk)).
Qed.

Lemma fibonacci_splay_fills_witness :
  0 <= 6 /\
  exists t',
    fibonacci_splay 6 Nil = Ok (Some (fib_iter 6), t') /\
    forall k v, In (k, v) (items t') <-> 0 <= k <= 6 /\ v = fib_iter k.
Proof.
  assert (H6 : 0 <= 6) by lia.
  exact (conj H6 (fibonacci_splay_fills 6 H6)).
Defined.

(** ** fibonacci_lru *)

Lemma fib_for_loop (count : nat) (a b : Z) :
  fib_for count a b = fib_loop (S count) a b.
Proof.
  revert a b. induction count as [|count IH]; intros a b; [reflexivity|].
  cbn [fib_for]. rewrite IH. reflexivity.
Qed.

Lemma fib_value_small (n : Z) : n < 2 -> fib_value n = n.
Proof.
  intros Hn. unfold fib_value. destruct (n <? 0) eqn:E; [reflexivity|].
  to_Z_order. assert (n = 0 \/ n = 1) as [->| ->] by lia; reflexivity.
Qed.

Lemma fib_value_rec (n : Z) :
  2 <= n -> fib_value n = fib_value (n - 1) + fib_value (n - 2).
Proof.
  intros Hn. unfold fib_value.
  destruct (n <? 0) eqn:E0, (n - 1 <? 0) eqn:E1, (n - 2 <? 0) eqn:E2;
    to_Z_order; try lia.
  now apply fib_iter_rec.
Qed.

Lemma fib_value_for (n : Z) :
  2 <= n -> fib_for (Z.to_nat (n + 1 - 2)) 0 1 = fib_value n.
Proof.
  intros Hn. rewrite fib_for_loop. unfold fib_value, fib_iter.
  destruct (n <? 0) eqn:E0; to_Z_order; [lia|].
  f_equal. lia.
Qed.

Lemma cache_ok_store (n : Z) (c : cache) :
  cache_ok c -> cache_ok ((n, fib_value n) :: c).
Proof.
  intros Hc k v. cbn [cache_get].
  destruct (n =? k) eqn:E; to_Z_order; [|apply Hc].
  intros [= <-]. now subst.
Qed.

Lemma fibonacci_lru_value (depth : nat) (n : Z) (c : cache) :
  cache_ok c ->
  (Z.to_nat (Z.min n MAX_RECURSIVE_N) < depth)%nat ->
  exists c', fibonacci_lru depth n c = Ok (fib_value n, c') /\ cache_ok c'.
Proof.
  revert n c. induction depth as [|d IH]; intros n c Hc Hd; [lia|].
  cbn [fibonacci_lru]. destruct (cache_get n c) as [v|] eqn:Eg.
  { exists c. now rewrite (Hc _ _ Eg). }
  unfold MAX_RECURSIVE_N in *.
  destruct (n <? 2) eqn:E2; [|destruct (n <=? 400) eqn:E4].
  - to_Z_order. cbn [bind fst snd].
    pose proof (cache_ok_store n c Hc) as Hs.
    rewrite (fib_value_small n E2) in *. eauto.
  - to_Z_order. apply Z.leb_le in E4.
    destruct (IH (n - 1) c Hc ltac:(lia)) as (c1 & -> & Hc1).
    cbn [bind fst snd].
    destruct (IH (n - 2) c1 Hc1 ltac:(lia)) as (c2 & -> & Hc2).
    cbn [bind fst snd]. rewrite <- (fib_value_rec n E2).
    eexists. split; [reflexivity|]. now apply cache_ok_store.
  - to_Z_order. cbn [bind fst snd]. rewrite (fib_value_for n E2).
    eexists. split; [reflexivity|]. now apply cache_ok_store.
Qed.

Lemma cache_ok_empty : cache_ok [].
Proof. intros k v. discriminate. Qed.

(** X9. With a store that holds only results of the function, and more
    frames than the smaller of [n] and [MAX_RECURSIVE_N], [fibonacci_lru]
    returns without exhausting the frames: its result is [n] itself for
    [n < 2], the value of the iterative reference for [n >= 0], and the
    store it leaves again holds only results of the function. *)
Theorem fibonacci_lru_correct (depth : nat) (n : Z) (c : cache) :
  cache_ok c ->
  (Z.to_nat (Z.min n MAX_RECURSIVE_N) < depth)%nat ->
  exists v c',
    fibonacci_lru depth n c = Ok (v, c') /\ cache_ok c' /\
    (n < 2 -> v = n) /\ (0 <= n -> v = fib_iter n).
Proof.
  intros Hc Hd. destruct (fibonacci_lru_value depth n c Hc Hd) as (c' & E & Hc').
  exists (fib_value n), c'. repeat split; auto.
  - apply fib_value_small.
  - intros Hn. unfold fib_value. destruct (n <? 0) eqn:E0; to_Z_order; [lia|].
    reflexivity.
Qed.

Lemma fibonacci_lru_correct_witness :
  cache_ok [] /\ (Z.to_nat (Z.min 1000 MAX_RECURSIVE_N) < 401)%nat /\
  exists v c',
    fibonacci_lru 401 1000 [] = Ok (v, c') /\ cache_ok c' /\
    (1000 < 2 -> v = 1000) /\ (0 <= 1000 -> v = fib_iter 1000).
Proof.
  assert (Hd : (Z.to_nat (Z.min 1000 MAX_RECURSIVE_N) < 401)%nat)
    by (unfold MAX_RECURSIVE_N; lia).
  exact (conj cache_ok_empty (conj Hd
           (fibonacci_lru_correct 401 1000 [] cache_ok_empty Hd))).
Defined.

(** X10. For every [n >= 0], [fibonacci_lru] on the cleared store, given
    more than [MAX_RECURSIVE_N] frames, and [fibonacci_splay] on a new
    tree return the same number. *)
Theorem fibonacci_lru_splay_agree (depth : nat) (n : Z) :
  0 <= n -> (Z.to_nat MAX_RECURSIVE_N < depth)%nat ->
  exists v c t,
    fibonacci_lru depth n [] = Ok (v, c) /\
    fibonacci_splay n Nil = Ok (Some v, t).
Proof.
  intros Hn Hd.
  destruct (fibonacci_lru_value depth n [] cache_ok_empty) as (c & E & _).
  { unfold MAX_RECURSIVE_N in *. lia. }
  destruct (fibonacci_splay_memo Nil n I memo_Nil) as (res & t & Es & _ & _ & Hres).
  exists (fib_iter n), c, t. rewrite Es, (Hres Hn), E. split; [|reflexivity].
  unfold fib_value. destruct (n <? 0) eqn:E0; to_Z_order; [lia|reflexivity].
Qed.

Lemma fibonacci_lru_splay_agree_witness :
  0 <= 30 /\ (Z.to_nat MAX_RECURSIVE_N < 401)%nat /\
  exists v c t,
    fibonacci_lru 401 30 [] = Ok (v, c) /\
    fibonacci_splay 30 Nil = Ok (Some v, t).
Proof.
  assert (Hn : 0 <= 30) by lia.
  assert (Hd : (Z.to_nat MAX_RECURSIVE_N < 401)%nat)
    by (unfold MAX_RECURSIVE_N; lia).
  exact (conj Hn (conj Hd (fibonacci_lru_splay_agree 401 30 Hn Hd))).
Defined.

(** ** OrderedDict and LRUCache *)

Lemma key_eqb_eq (a b : OrderedDict.key) :
  OrderedDict.key_eqb a b = true <-> a = b.
Proof.
  destruct a as [a1 a2], b as [b1 b2]. unfold OrderedDict.key_eqb. simpl.
  rewrite andb_true_iff, !Z.eqb_eq. split.
  - now intros [-> ->].
  - now intros [= -> ->].
Qed.

Lemma key_eqb_refl (a : OrderedDict.key) : OrderedDict.key_eqb a a = true.
Proof. now apply key_eqb_eq. Qed.

Lemma contains_In (k : OrderedDict.key) (d : OrderedDict.t) :
  OrderedDict.contains k d = true <-> In k (map fst d).
Proof.
  unfold OrderedDict.contains. rewrite existsb_exists, in_map_iff.
  split; intros (e & H1 & H2); exists e.
  - apply key_eqb_eq in H2. auto.
  - split; [exact H2|]. now apply key_eqb_eq.
Qed.

Lemma find_key (k : OrderedDict.key) (d : OrderedDict.t) :
  match find (fun e => OrderedDict.key_eqb (fst e) k) d with
  | Some e => fst e = k /\ In e d /\ OrderedDict.contains k d = true
  | None => OrderedDict.contains k d = false
  end.
Proof.
  induction d as [|e d IH]; simpl; [reflexivity|].
  destruct (OrderedDict.key_eqb (fst e) k) eqn:E.
  - apply key_eqb_eq in E. auto.
  - simpl. destruct (find _ d); [|exact IH].
    destruct IH as (H1 & H2 & H3). auto.
Qed.

Lemma pop_default_absent (k : OrderedDict.key) (d : OrderedDict.t) :
  OrderedDict.contains k d = false -> OrderedDict.pop_default k d = d.
Proof.
  unfold OrderedDict.contains, OrderedDict.pop_default.
  induction d as [|e d IH]; simpl; [reflexivity|].
  rewrite orb_false_iff. intros [-> H]. simpl. now rewrite IH.
Qed.

Lemma contains_pop_default (k : OrderedDict.key) (d : OrderedDict.t) :
  OrderedDict.contains k (OrderedDict.pop_default k d) = false.
Proof.
  unfold OrderedDict.contains, OrderedDict.pop_default.
  induction d as [|e d IH]; simpl; [reflexivity|].
  destruct (OrderedDict.key_eqb (fst e) k) eqn:E; simpl; [exact IH|].
  now rewrite E, IH.
Qed.

Lemma contains_app (k : OrderedDict.key) (d1 d2 : OrderedDict.t) :
  OrderedDict.contains k (d1 ++ d2)
  = OrderedDict.contains k d1 || OrderedDict.contains k d2.
Proof. apply existsb_app. Qed.

Lemma contains_tl (k : OrderedDict.key) (d : OrderedDict.t) :
  OrderedDict.contains k d = false -> OrderedDict.contains k (tl d) = false.
Proof.
  destruct d as [|e d]; [auto|]. unfold OrderedDict.contains. simpl.
  rewrite orb_false_iff. tauto.
Qed.

(** The first pair with a key that is only at the end of the dictionary. *)
Lemma getitem_end (k : OrderedDict.key) (v : Z) (d d' : OrderedDict.t) :
  OrderedDict.contains k d = false ->
  OrderedDict.getitem k (d ++ (k, v) :: d') = Return v.
Proof.
  unfold OrderedDict.contains, OrderedDict.getitem.
  induction d as [|e d IH]; simpl.
  - now rewrite key_eqb_refl.
  - rewrite orb_false_iff. intros [-> H]. now apply IH.
Qed.

Lemma setitem_end (k : OrderedDict.key) (v v0 : Z) (d : OrderedDict.t) :
  OrderedDict.contains k d = false ->
  OrderedDict.setitem k v (d ++ [(k, v0)]) = d ++ [(k, v)].
Proof.
  intros H. unfold OrderedDict.setitem.
  assert (Hc : OrderedDict.contains k (d ++ [(k, v0)]) = true).
  { rewrite contains_app, H. unfold OrderedDict.contains. cbn [existsb fst].
    now rewrite key_eqb_refl. }
  rewrite Hc, map_app. cbn [map fst]. rewrite key_eqb_refl. f_equal.
  clear Hc. unfold OrderedDict.contains in H.
  induction d as [|e d IH]; simpl in *; [reflexivity|].
  apply orb_false_iff in H. destruct H as [-> H]. now rewrite IH.
Qed.

(** [get] and [put] in one piece. *)
Lemma get_eq (c : LRUCache.t) (k : OrderedDict.key) :
  LRUCache.get c k =
  match find (fun e => OrderedDict.key_eqb (fst e) k) (LRUCache.data c) with
  | Some e =>
    Return (snd e,
            LRUCache.mk (LRUCache.capacity c)
              (OrderedDict.pop_default k (LRUCache.data c) ++ [(k, snd e)]))
  | None => Return (-1, c)
  end.
Proof.
  unfold LRUCache.get, OrderedDict.move_to_end, OrderedDict.getitem at 1.
  pose proof (find_key k (LRUCache.data c)) as H.
  destruct (find _ (LRUCache.data c)) as [e|].
  - destruct H as (_ & _ & ->). cbn [and_then].
    rewrite getitem_end by apply contains_pop_default. reflexivity.
  - now rewrite H.
Qed.

Lemma put_eq (c : LRUCache.t) (k : OrderedDict.key) (v : Z) :
  LRUCache.put c k v =
  let d2 := OrderedDict.pop_default k (LRUCache.data c) ++ [(k, v)] in
  Return (LRUCache.mk (LRUCache.capacity c)
            (if Z.of_nat (length d2) >? LRUCache.capacity c
             then tl d2 else d2)).
Proof.
  unfold LRUCache.put.
  assert (H : exists d1,
    (if OrderedDict.contains k (LRUCache.data c)
     then OrderedDict.move_to_end k (LRUCache.data c)
     else Return (LRUCache.data c)) = Return d1 /\
    OrderedDict.setitem k v d1
    = OrderedDict.pop_default k (LRUCache.data c) ++ [(k, v)]).
  { unfold OrderedDict.move_to_end, OrderedDict.getitem.
    pose proof (find_key k (LRUCache.data c)) as H.
    destruct (find _ (LRUCache.data c)) as [e|].
    - destruct H as (_ & _ & ->). cbn [and_then]. eexists. split; [reflexivity|].
      apply setitem_end, contains_pop_default.
    - rewrite H. eexists. split; [reflexivity|].
      unfold OrderedDict.setitem. rewrite H.
      now rewrite pop_default_absent. }
  destruct H as (d1 & E1 & E2). rewrite E1. cbn [and_then]. cbv zeta.
  rewrite E2. destruct (_ >? _); [|reflexivity].
  destruct (OrderedDict.pop_default k (LRUCache.data c)); reflexivity.
Qed.

Lemma pop_default_shorter (k : OrderedDict.key) (d : OrderedDict.t) :
  OrderedDict.contains k d = true ->
  (length (OrderedDict.pop_default k d) < length d)%nat.
Proof.
  unfold OrderedDict.contains, OrderedDict.pop_default.
  induction d as [|e d IH]; simpl; [discriminate|].
  destruct (OrderedDict.key_eqb (fst e) k); simpl.
  - intros _. pose proof (filter_length_le
      (fun e0 => negb (OrderedDict.key_eqb (fst e0) k)) d). lia.
  - intros H. apply IH in H. lia.
Qed.

Lemma pop_default_length (k : OrderedDict.key) (d : OrderedDict.t) :
  (length (OrderedDict.pop_default k d) <= length d)%nat.
Proof. apply filter_length_le. Qed.

(** X11. With room for one pair at least, [put(k, v)] followed by [get(k)]
    gives [v], whatever the cache held. *)
Theorem put_then_get (c : LRUCache.t) (k : OrderedDict.key) (v : Z) :
  1 <= LRUCache.capacity c ->
  exists c1 c2,
    LRUCache.put c k v = Return c1 /\ LRUCache.get c1 k = Return (v, c2).
Proof.
  intros Hcap. rewrite put_eq. cbv zeta.
  set (p := OrderedDict.pop_default k (LRUCache.data c)).
  assert (Hp : OrderedDict.contains k p = false) by apply contains_pop_default.
  assert (H : exists p', OrderedDict.contains k p' = false /\
     (if Z.of_nat (length (p ++ [(k, v)])) >? LRUCache.capacity c
      then tl (p ++ [(k, v)]) else p ++ [(k, v)]) = p' ++ [(k, v)]).
  { destruct (_ >? _) eqn:E; [|eauto].
    destruct p as [|e p']; [|exists p'; split; [exact (contains_tl k _ Hp)|reflexivity]].
    simpl in E. rewrite Z.gtb_ltb in E. apply Z.ltb_lt in E. lia. }
  destruct H as (p' & Hp' & E).
  eexists. eexists. split; [apply f_equal, f_equal; exact E|].
  rewrite get_eq. cbn [LRUCache.data LRUCache.capacity].
  pose proof (getitem_end k v p' [] Hp') as Hg.
  unfold OrderedDict.getitem in Hg.
  destruct (find _ (p' ++ [(k, v)])) as [e|]; [|discriminate].
  injection Hg as ->. reflexivity.
Qed.

Lemma put_then_get_witness :
  1 <= LRUCache.capacity (LRUCache.init 2) /\
  exists c1 c2,
    LRUCache.put (LRUCache.init 2) (0, 3) 7 = Return c1 /\
    LRUCache.get c1 (0, 3) = Return (7, c2).
Proof.
  assert (H : 1 <= LRUCache.capacity (LRUCache.init 2)) by (simpl; lia).
  exact (conj H (put_then_get (LRUCache.init 2) (0, 3) 7 H)).
Defined.

(** X12. A cache that holds no more pairs than its capacity still does so
    after [put] and after [get], and neither of them raises. *)
Theorem cache_size_bounded (c : LRUCache.t) (k : OrderedDict.key) (v : Z) :
  Z.of_nat (length (LRUCache.data c)) <= LRUCache.capacity c ->
  (exists c', LRUCache.put c k v = Return c' /\
              LRUCache.capacity c' = LRUCache.capacity c /\
              Z.of_nat (length (LRUCache.data c')) <= LRUCache.capacity c') /\
  (exists x c', LRUCache.get c k = Return (x, c') /\
                LRUCache.capacity c' = LRUCache.capacity c /\
                Z.of_nat (length (LRUCache.data c')) <= LRUCache.capacity c').
Proof.
  intros Hlen. pose proof (pop_default_length k (LRUCache.data c)) as Hp. split.
  - rewrite put_eq. cbv zeta. eexists. split; [reflexivity|].
    split; [reflexivity|]. cbn [LRUCache.data LRUCache.capacity].
    destruct (_ >? _) eqn:E.
    + destruct (OrderedDict.pop_default k (LRUCache.data c)); simpl in *;
        rewrite ?length_app in *; simpl in *; lia.
    + rewrite Z.gtb_ltb in E. apply Z.ltb_ge in E. exact E.
  - rewrite get_eq.
    pose proof (find_key k (LRUCache.data c)) as Hf.
    destruct (find _ (LRUCache.data c)) as [e|].
    + eexists _, _. split; [reflexivity|]. split; [reflexivity|].
      cbn [LRUCache.data LRUCache.capacity]. rewrite length_app. simpl.
      destruct Hf as (_ & _ & Hc).
      pose proof (pop_default_shorter k _ Hc). lia.
    + eauto.
Qed.

Lemma cache_size_bounded_witness :
  Z.of_nat (length (LRUCache.data (LRUCache.init 0)))
    <= LRUCache.capacity (LRUCache.init 0) /\
  exists c', LRUCache.put (LRUCache.init 0) (1, 2) 5 = Return c' /\
             LRUCache.capacity c' = LRUCache.capacity (LRUCache.init 0) /\
             Z.of_nat (length (LRUCache.data c')) <= LRUCache.capacity c'.
Proof.
  assert (H : Z.of_nat (length (LRUCache.data (LRUCache.init 0)))
              <= LRUCache.capacity (LRUCache.init 0)) by (simpl; lia).
  exact (conj H (proj1 (cache_size_bounded (LRUCache.init 0) (1, 2) 5 H))).
Defined.

(** X13. [put] of a key that is not stored into a cache that is full
    drops the pair at the head of the dictionary, the one used least
    recently, keeps the others in their order and puts the new pair last. *)
Theorem put_evicts_oldest (c : LRUCache.t) (k : OrderedDict.key) (v : Z)
    (e : OrderedDict.key * Z) (d : OrderedDict.t) :
  LRUCache.data c = e :: d ->
  LRUCache.capacity c = Z.of_nat (length (e :: d)) ->
  OrderedDict.contains k (LRUCache.data c) = false ->
  LRUCache.put c k v = Return (LRUCache.mk (LRUCache.capacity c) (d ++ [(k, v)])).
Proof.
  intros Hd Hcap Hk. rewrite put_eq. cbv zeta.
  rewrite (pop_default_absent k _ Hk), Hd, Hcap.
  replace (Z.of_nat (length ((e :: d) ++ [(k, v)])) >? Z.of_nat (length (e :: d)))
    with true; [reflexivity|].
  symmetry. rewrite Z.gtb_ltb. apply Z.ltb_lt. rewrite length_app. simpl. lia.
Qed.

Lemma put_evicts_oldest_witness :
  LRUCache.data cache_two = [((0, 1), 10); ((2, 3), 20)] /\
  LRUCache.capacity cache_two
  = Z.of_nat (length [((0, 1), 10); ((2, 3), 20)]) /\
  OrderedDict.contains (4, 5) (LRUCache.data cache_two) = false /\
  LRUCache.put cache_two (4, 5) 30
  = Return (LRUCache.mk (LRUCache.capacity cache_two)
              ([((2, 3), 20)] ++ [((4, 5), 30)])).
Proof.
  exact (conj eq_refl (conj eq_refl (conj eq_refl
    (put_evicts_oldest cache_two (4, 5) 30 ((0, 1), 10) [((2, 3), 20)]
       eq_refl eq_refl eq_refl)))).
Defined.

Lemma contains_pop_other (k k' : OrderedDict.key) (d : OrderedDict.t) :
  OrderedDict.contains k' d = false ->
  OrderedDict.contains k' (OrderedDict.pop_default k d) = false.
Proof.
  unfold OrderedDict.contains, OrderedDict.pop_default.
  induction d as [|e d IH]; simpl; [reflexivity|].
  rewrite orb_false_iff. intros [He H].
  destruct (OrderedDict.key_eqb (fst e) k); simpl; [auto|].
  rewrite He. auto.
Qed.

Lemma get_found (cap x : Z) (k : OrderedDict.key) (q d : OrderedDict.t) :
  OrderedDict.contains k q = false ->
  exists c', LRUCache.get (LRUCache.mk cap (q ++ (k, x) :: d)) k
             = Return (x, c').
Proof.
  intros Hq. rewrite get_eq. cbn [LRUCache.data LRUCache.capacity].
  pose proof (getitem_end k x q d Hq) as Hg.
  unfold OrderedDict.getitem in Hg.
  destruct (find _ (q ++ (k, x) :: d)) as [e|]; [|discriminate].
  injection Hg as ->. eauto.
Qed.

(** X14. In a cache with room for two pairs at least, a key that [get]
    has just found is still stored, with the same value, after a [put] of
    a key that was not stored: the pair that [put] may drop is another. *)
Theorem get_protects_from_eviction (c : LRUCache.t) (k k' : OrderedDict.key)
    (v' : Z) :
  2 <= LRUCache.capacity c ->
  OrderedDict.contains k (LRUCache.data c) = true ->
  OrderedDict.contains k' (LRUCache.data c) = false ->
  exists x c1 c2 c3,
    LRUCache.get c k = Return (x, c1) /\
    LRUCache.put c1 k' v' = Return c2 /\
    LRUCache.get c2 k = Return (x, c3).
Proof.
  intros Hcap Hk Hk'. rewrite get_eq.
  pose proof (find_key k (LRUCache.data c)) as Hf.
  destruct (find _ (LRUCache.data c)) as [e|]; [|congruence].
  set (p := OrderedDict.pop_default k (LRUCache.data c)).
  assert (Hp : OrderedDict.contains k p = false) by apply contains_pop_default.
  assert (Hp' : OrderedDict.contains k' p = false)
    by (apply contains_pop_other; exact Hk').
  assert (Hne : OrderedDict.key_eqb k k' = false).
  { destruct (OrderedDict.key_eqb k k') eqn:E; [|reflexivity].
    apply key_eqb_eq in E. congruence. }
  assert (Habs : OrderedDict.contains k' (p ++ [(k, snd e)]) = false).
  { rewrite contains_app, Hp'. unfold OrderedDict.contains.
    cbn [existsb fst]. now rewrite Hne. }
  exists (snd e), (LRUCache.mk (LRUCache.capacity c) (p ++ [(k, snd e)])).
  rewrite put_eq. cbv zeta. cbn [LRUCache.data LRUCache.capacity].
  rewrite (pop_default_absent k' _ Habs).
  assert (H : exists q,
     OrderedDict.contains k q = false /\
     (if Z.of_nat (length ((p ++ [(k, snd e)]) ++ [(k', v')]))
           >? LRUCache.capacity c
      then tl ((p ++ [(k, snd e)]) ++ [(k', v')])
      else (p ++ [(k, snd e)]) ++ [(k', v')])
     = q ++ (k, snd e) :: [(k', v')]).
  { rewrite <- app_assoc. cbn [app].
    destruct (_ >? _) eqn:E; [|eauto].
    destruct p as [|e0 p0].
    - simpl in E. rewrite Z.gtb_ltb in E. apply Z.ltb_lt in E. lia.
    - exists p0. split; [exact (contains_tl k _ Hp)|reflexivity]. }
  destruct H as (q & Hq & E).
  destruct (get_found (LRUCache.capacity c) (snd e) k q [(k', v')] Hq)
    as (c3 & Hg).
  eexists. exists c3. split; [reflexivity|]. split; [reflexivity|].
  rewrite <- Hg. do 2 f_equal. exact E.
Qed.

Lemma get_protects_from_eviction_witness :
  2 <= LRUCache.capacity cache_two /\
  OrderedDict.contains (0, 1) (LRUCache.data cache_two) = true /\
  OrderedDict.contains (4, 5) (LRUCache.data cache_two) = false /\
  exists x c1 c2 c3,
    LRUCache.get cache_two (0, 1) = Return (x, c1) /\
    LRUCache.put c1 (4, 5) 30 = Return c2 /\
    LRUCache.get c2 (0, 1) = Return (x, c3).
Proof.
  assert (H : 2 <= LRUCache.capacity cache_two) by (simpl; lia).
  exact (conj H (conj eq_refl (conj eq_refl
    (get_protects_from_eviction cache_two (0, 1) (4, 5) 30
       H eq_refl eq_refl)))).
Defined.

(** ** Lists: slices and item assignment *)

Lemma list_setitem_inside (a : list Z) (i v : Z) :
  0 <= i < Z.of_nat (length a) ->
  list_setitem a i v
  = Return (firstn (Z.to_nat i) a ++ v :: skipn (S (Z.to_nat i)) a).
Proof.
  intros Hi. unfold list_setitem. cbv zeta.
  assert (E1 : (i <? 0) = false) by (apply Z.ltb_ge; lia).
  assert (E2 : (i >=? Z.of_nat (length a)) = false)
    by (rewrite Z.geb_leb; apply Z.leb_gt; lia).
  rewrite E1. cbv iota. now rewrite E1, E2.
Qed.

Lemma setitem_length (a : list Z) (n : nat) (v : Z) :
  (n < length a)%nat ->
  length (firstn n a ++ v :: skipn (S n) a) = length a.
Proof.
  intros Hn. rewrite length_app, length_firstn. cbn [length].
  rewrite length_skipn. lia.
Qed.

Lemma skipn_setitem (a : list Z) (n s : nat) (v : Z) :
  (n < length a)%nat -> (n < s)%nat ->
  skipn s (firstn n a ++ v :: skipn (S n) a) = skipn s a.
Proof.
  intros Hn Hs. rewrite skipn_app, length_firstn.
  rewrite skipn_all2 by (rewrite length_firstn; lia).
  replace (s - Nat.min n (length a))%nat with (S (s - S n)) by lia.
  rewrite skipn_cons, app_nil_l, skipn_skipn. f_equal. lia.
Qed.

Lemma firstn_setitem (a : list Z) (n m : nat) (v : Z) :
  (n < length a)%nat -> (m <= n)%nat ->
  firstn m (firstn n a ++ v :: skipn (S n) a) = firstn m a.
Proof.
  intros Hn Hm. rewrite firstn_app, length_firstn.
  replace (m - Nat.min n (length a))%nat with O by lia.
  rewrite firstn_0, app_nil_r, firstn_firstn. f_equal. lia.
Qed.

(** Assigning the item at [i] leaves a slice aside of [i] as it is. *)
Lemma slice_setitem_outside (a : list Z) (i v l r : Z) :
  0 <= i < Z.of_nat (length a) -> -1 <= r -> ~ (l <= i <= r) ->
  slice (firstn (Z.to_nat i) a ++ v :: skipn (S (Z.to_nat i)) a) l (r + 1)
  = slice a l (r + 1).
Proof.
  intros Hi Hr Hout. unfold slice.
  rewrite setitem_length by lia.
  remember (Z.of_nat (length a)) as len eqn:Elen.
  assert (Hs : 0 <= slice_bound len l <= len)
    by (unfold slice_bound; destruct (l <? 0) eqn:E; to_Z_order; lia).
  assert (He : slice_bound len (r + 1) = Z.min (r + 1) len).
  { unfold slice_bound. destruct (r + 1 <? 0) eqn:E; [|reflexivity].
    apply Z.ltb_lt in E. lia. }
  destruct (Z.lt_ge_cases i l) as [Hlt|Hge].
  - assert (Hl : slice_bound len l = Z.min l len).
    { unfold slice_bound. destruct (l <? 0) eqn:E; [|reflexivity].
      apply Z.ltb_lt in E. lia. }
    rewrite skipn_setitem by lia. reflexivity.
  - rewrite He.
    destruct (Z.le_gt_cases (Z.min (r + 1) len) (slice_bound len l)) as [Hle|Hgt].
    + replace (Z.to_nat (Z.min (r + 1) len - slice_bound len l)) with O by lia.
      now rewrite !firstn_0.
    + rewrite firstn_skipn_comm, (firstn_skipn_comm _ _ a).
      rewrite firstn_setitem by lia. reflexivity.
Qed.

(** ** The cached sums *)

Lemma coherent_pop (a : list Z) (k : OrderedDict.key) (d : OrderedDict.t) :
  coherent a d -> coherent a (OrderedDict.pop_default k d).
Proof.
  unfold coherent. rewrite !Forall_forall. intros H e He.
  apply H. unfold OrderedDict.pop_default in He.
  apply filter_In in He. tauto.
Qed.

Lemma coherent_put_order (a : list Z) (k : OrderedDict.key) (v cap : Z)
    (d : OrderedDict.t) :
  coherent a d -> -1 <= snd k ->
  v = range_sum_no_cache a (fst k) (snd k) ->
  coherent a (if Z.of_nat (length (OrderedDict.pop_default k d ++ [(k, v)]))
                   >? cap
              then tl (OrderedDict.pop_default k d ++ [(k, v)])
              else OrderedDict.pop_default k d ++ [(k, v)]).
Proof.
  intros Hc Hk Hv.
  assert (H : coherent a (OrderedDict.pop_default k d ++ [(k, v)])).
  { apply Forall_app. split; [now apply coherent_pop|].
    constructor; [|constructor]. simpl. auto. }
  destruct (_ >? _); [|exact H].
  destruct (OrderedDict.pop_default k d ++ [(k, v)]) as [|e q]; [exact H|].
  simpl. now inversion H.
Qed.

(** A range sum asked of a coherent cache is the sum of the array. *)
Lemma range_sum_coherent (c : LRUCache.t) (a : list Z) (l r : Z) :
  coherent a (LRUCache.data c) -> -1 <= r ->
  exists c',
    range_sum_with_cache c a l r = Return (range_sum_no_cache a l r, c') /\
    LRUCache.capacity c' = LRUCache.capacity c /\
    coherent a (LRUCache.data c').
Proof.
  intros Hc Hr. unfold range_sum_with_cache. rewrite get_eq.
  pose proof (find_key (l, r) (LRUCache.data c)) as Hf.
  destruct (find _ (LRUCache.data c)) as [e|].
  - destruct Hf as (Hk & Hin & _).
    pose proof (proj1 (Forall_forall _ _) Hc e Hin) as (_ & He).
    destruct e as [k0 x]. cbn [fst snd] in *. subst k0. cbn [fst snd] in He.
    assert (Hc1 : coherent a
              (OrderedDict.pop_default (l, r) (LRUCache.data c)
               ++ [((l, r), x)])).
    { apply Forall_app. split; [now apply coherent_pop|].
      constructor; [|constructor]. simpl. auto. }
    cbn [and_then fst snd].
    destruct (negb (x =? -1)) eqn:E.
    + rewrite <- He. eexists. split; [reflexivity|]. split; [reflexivity|].
      exact Hc1.
    + rewrite put_eq. cbv zeta. cbn [and_then LRUCache.data LRUCache.capacity].
      eexists. split; [reflexivity|]. split; [reflexivity|].
      cbn [LRUCache.data]. apply coherent_put_order; auto.
  - cbn [and_then fst snd]. replace (negb (-1 =? -1)) with false by reflexivity.
    rewrite put_eq. cbv zeta. cbn [and_then].
    eexists. split; [reflexivity|]. split; [reflexivity|].
    cbn [LRUCache.data]. apply coherent_put_order; auto.
Qed.

Lemma drop_covering_incl (index : Z) (ks : list OrderedDict.key)
    (d : OrderedDict.t) (e : OrderedDict.key * Z) :
  In e (fold_left (drop_covering index) ks d) -> In e d.
Proof.
  revert d. induction ks as [|k ks IH]; intros d; simpl; [auto|].
  intros H. apply IH in H. unfold drop_covering in H.
  destruct (_ && _); [|exact H].
  unfold OrderedDict.pop_default in H. apply filter_In in H. tauto.
Qed.

Lemma drop_covering_gone (index : Z) (ks : list OrderedDict.key)
    (d : OrderedDict.t) (e : OrderedDict.key * Z) :
  In e (fold_left (drop_covering index) ks d) -> In (fst e) ks ->
  ~ (fst (fst e) <= index <= snd (fst e)).
Proof.
  revert d. induction ks as [|k ks IH]; intros d; simpl; [tauto|].
  intros H [Hk|Hk]; [|exact (IH _ H Hk)].
  intros Hcov. apply drop_covering_incl in H. unfold drop_covering in H.
  subst k.
  replace ((fst (fst e) <=? index) && (index <=? snd (fst e))) with true in H.
  - unfold OrderedDict.pop_default in H. apply filter_In in H.
    rewrite key_eqb_refl in H. destruct H. discriminate.
  - symmetry. apply andb_true_iff. split; apply Z.leb_le; lia.
Qed.

(** An update at an index of the array drops every stored range that
    holds the index: the cache stays coherent with the new array. *)
Lemma update_coherent (c : LRUCache.t) (a : list Z) (i v : Z) :
  coherent a (LRUCache.data c) -> 0 <= i < Z.of_nat (length a) ->
  exists c' a',
    update_with_cache c a i v = Return (c', a') /\
    update_no_cache a i v = Return a' /\
    LRUCache.capacity c' = LRUCache.capacity c /\
    length a' = length a /\
    coherent a' (LRUCache.data c').
Proof.
  intros Hc Hi. unfold update_with_cache, update_no_cache.
  rewrite list_setitem_inside by exact Hi. cbn [and_then].
  eexists _, _. split; [reflexivity|]. split; [reflexivity|].
  split; [reflexivity|]. split; [apply setitem_length; lia|].
  cbn [LRUCache.data]. unfold coherent. apply Forall_forall. intros e He.
  change (In e (fold_left (drop_covering i) (LRUCache.keys c) (LRUCache.data c)))
    in He.
  pose proof (drop_covering_incl _ _ _ _ He) as Hin.
  pose proof (drop_covering_gone _ _ _ _ He (in_map fst _ _ Hin)) as Hout.
  pose proof (proj1 (Forall_forall _ _) Hc e Hin) as (Hr & Hs).
  split; [exact Hr|]. rewrite Hs. unfold range_sum_no_cache.
  now rewrite slice_setitem_outside.
Qed.

(** X15. On queries whose ranges do not end before -1 and whose updates
    are at indices of the array from 0 on, the loop that asks the cache,
    started with a coherent cache (an empty one is), ends with the same
    checksum and the same array as the loop without cache, and neither
    raises; the cache is coherent at the end. *)
Theorem cached_run_agrees (queries : list query) (checksum : Z)
    (cache : LRUCache.t) (array : list Z) :
  coherent array (LRUCache.data cache) ->
  Forall (query_ok (length array)) queries ->
  exists checksum' cache' array',
    run_no_cache queries checksum array = Return (checksum', array') /\
    run_with_cache queries checksum cache array
      = Return (checksum', cache', array') /\
    coherent array' (LRUCache.data cache').
Proof.
  revert checksum cache array.
  induction queries as [|q queries IH]; intros checksum cache array Hc Hq.
  - exists checksum, cache, array. auto.
  - inversion Hq as [|? ? Hq1 Hq2]; subst.
    destruct q as [l r|i v]; cbn [run_no_cache run_with_cache]; simpl in Hq1.
    + destruct (range_sum_coherent cache array l r Hc Hq1) as (c1 & -> & _ & Hc1).
      cbn [and_then fst snd]. apply IH; auto.
    + destruct (update_coherent cache array i v Hc Hq1)
        as (c1 & a1 & -> & -> & _ & Hlen & Hc1).
      cbn [and_then fst snd]. apply IH; auto.
      rewrite Hlen. exact Hq2.
Qed.

Lemma cached_run_agrees_witness :
  coherent [1; 2; 3] (LRUCache.data (LRUCache.init 1)) /\
  Forall (query_ok (length [1; 2; 3])) [Range 0 2; Update 1 7; Range 0 2] /\
  exists checksum' cache' array',
    run_no_cache [Range 0 2; Update 1 7; Range 0 2] 0 [1; 2; 3]
      = Return (checksum', array') /\
    run_with_cache [Range 0 2; Update 1 7; Range 0 2] 0 (LRUCache.init 1)
        [1; 2; 3]
      = Return (checksum', cache', array') /\
    coherent array' (LRUCache.data cache').
Proof.
  assert (Hc : coherent [1; 2; 3] (LRUCache.data (LRUCache.init 1)))
    by constructor.
  assert (Hq : Forall (query_ok (length [1; 2; 3]))
                 [Range 0 2; Update 1 7; Range 0 2])
    by (repeat constructor; simpl; lia).
  exact (conj Hc (conj Hq
    (cached_run_agrees [Range 0 2; Update 1 7; Range 0 2] 0
       (LRUCache.init 1) [1; 2; 3] Hc Hq))).
Defined.

(** X16. Both updates raise [IndexError] exactly when the index is below
    minus the length of the array or not below the length; the update
    through the cache raises whenever the plain one does. *)
Theorem update_index_error (cache : LRUCache.t) (array : list Z)
    (index value : Z) :
  (update_no_cache array index value = Throw IndexError <->
   index < - Z.of_nat (length array) \/ Z.of_nat (length array) <= index) /\
  (update_with_cache cache array index value = Throw IndexError <->
   update_no_cache array index value = Throw IndexError).
Proof.
  unfold update_with_cache, update_no_cache, list_setitem. cbv zeta.
  set (len := Z.of_nat (length array)).
  assert (Hlen : 0 <= len) by (unfold len; lia). clearbody len.
  destruct (index <? 0) eqn:E0; to_Z_order;
    match goal with
    | |- context [(?i <? 0) || (?i >=? len)] =>
        destruct (i <? 0) eqn:E1; destruct (i >=? len) eqn:E2
    end;
    rewrite Z.geb_leb in E2;
    try apply Z.leb_le in E2; try apply Z.leb_gt in E2; to_Z_order;
    cbn [orb and_then]; (split; split); intros H;
    try reflexivity; try discriminate; try lia;
    try (destruct H; lia).
Qed.

(** X17. An update at a negative index that the array accepts changes the
    item counted from the end, and drops no stored range that begins at 0
    or later: such a range stays in the cache with the sum it had. *)
Theorem negative_index_keeps_ranges (cache : LRUCache.t) (array : list Z)
    (index value : Z) :
  - Z.of_nat (length array) <= index < 0 ->
  exists cache',
    update_with_cache cache array index value
    = Return (cache',
              firstn (Z.to_nat (index + Z.of_nat (length array))) array
              ++ value
                 :: skipn (S (Z.to_nat (index + Z.of_nat (length array)))) array)
    /\
    forall e, In e (LRUCache.data cache) -> 0 <= fst (fst e) ->
              In e (LRUCache.data cache').
Proof.
  intros Hi. unfold update_with_cache, list_setitem. cbv zeta.
  assert (E0 : (index <? 0) = true) by (apply Z.ltb_lt; lia).
  assert (E1 : (index + Z.of_nat (length array) <? 0) = false)
    by (apply Z.ltb_ge; lia).
  assert (E2 : (index + Z.of_nat (length array) >=? Z.of_nat (length array))
               = false)
    by (rewrite Z.geb_leb; apply Z.leb_gt; lia).
  rewrite E0. cbv iota. rewrite E1, E2. cbn [orb and_then].
  eexists. split; [reflexivity|]. cbn [LRUCache.data].
  intros e He Hl. generalize (LRUCache.keys cache). intros ks.
  revert He. generalize (LRUCache.data cache). 
  induction ks as [|k ks IH]; intros d He; simpl; [exact He|].
  apply IH. unfold drop_covering.
  destruct ((fst k <=? index) && (index <=? snd k)) eqn:E; [|exact He].
  apply andb_true_iff in E. destruct E as [E _]. apply Z.leb_le in E.
  unfold OrderedDict.pop_default. apply filter_In. split; [exact He|].
  destruct (OrderedDict.key_eqb (fst e) k) eqn:Ek; [|reflexivity].
  apply key_eqb_eq in Ek. subst k. lia.
Qed.

Lemma negative_index_keeps_ranges_witness :
  - Z.of_nat (length [1; 2; 3]) <= -1 < 0 /\
  exists cache',
    update_with_cache cache_two [1; 2; 3] (-1) 9
    = Return (cache',
              firstn (Z.to_nat (-1 + Z.of_nat (length [1; 2; 3]))) [1; 2; 3]
              ++ 9 :: skipn (S (Z.to_nat (-1 + Z.of_nat (length [1; 2; 3]))))
                        [1; 2; 3])
    /\
    forall e, In e (LRUCache.data cache_two) -> 0 <= fst (fst e) ->
              In e (LRUCache.data cache').
Proof.
  assert (Hi : - Z.of_nat (length [1; 2; 3]) <= -1 < 0) by (simpl; lia).
  exact (conj Hi (negative_index_keeps_ranges cache_two [1; 2; 3] (-1) 9 Hi)).
Defined.

(** X18. In a cache whose keys are distinct, [get] returns the value
    stored with the key, or -1 and the cache as it was when the key is not
    stored; in both cases the cache holds the same pairs afterwards. *)
Theorem get_result (c : LRUCache.t) (k : OrderedDict.key) :
  NoDup (LRUCache.keys c) ->
  exists x c',
    LRUCache.get c k = Return (x, c') /\
    (forall v, In (k, v) (LRUCache.data c) -> x = v) /\
    (~ In k (LRUCache.keys c) -> x = -1 /\ c' = c) /\
    (forall e, In e (LRUCache.data c') <-> In e (LRUCache.data c)).
Proof.
  intros Hnd. rewrite get_eq. unfold LRUCache.keys in *.
  pose proof (find_key k (LRUCache.data c)) as Hf.
  destruct (find _ (LRUCache.data c)) as [[k0 x]|].
  - destruct Hf as (Hk & Hin & Hc). cbn [fst snd] in *. subst k0.
    eexists _, _. split; [reflexivity|]. split; [|split].
    + intros v Hv. exact (fst_functional _ k x v Hnd Hin Hv).
    + intros Hn. exfalso. apply Hn. now apply contains_In.
    + intros e. cbn [LRUCache.data]. rewrite in_app_iff.
      unfold OrderedDict.pop_default. rewrite filter_In. simpl. split.
      * intros [[H _]|[<-|[]]]; auto.
      * intros He. destruct (OrderedDict.key_eqb (fst e) k) eqn:E.
        -- right. left. apply key_eqb_eq in E. destruct e as [k1 y].
           simpl in E. subst k1.
           now rewrite (fst_functional _ k x y Hnd Hin He).
        -- left. auto.
  - exists (-1), c. split; [reflexivity|]. split; [|split].
    + intros v Hv. exfalso.
      assert (Hc : OrderedDict.contains k (LRUCache.data c) = true).
      { apply contains_In. now apply (in_map fst) in Hv. }
      congruence.
    + auto.
    + tauto.
Qed.

Lemma get_result_witness :
  NoDup (LRUCache.keys cache_two) /\
  exists x c',
    LRUCache.get cache_two (0, 1) = Return (x, c') /\
    (forall v, In ((0, 1), v) (LRUCache.data cache_two) -> x = v) /\
    (~ In (0, 1) (LRUCache.keys cache_two) -> x = -1 /\ c' = cache_two) /\
    (forall e, In e (LRUCache.data c') <-> In e (LRUCache.data cache_two)).
Proof.
  assert (Hnd : NoDup (LRUCache.keys cache_two)).
  { simpl. constructor.
    - intros [H|[]]. discriminate.
    - constructor; [intros []|constructor]. }
  exact (conj Hnd (get_result cache_two (0, 1) Hnd)).
Defined.

(** ** More on insert and the driver *)

(** X19. Whatever the tree, [insert(k, v)] returns with the pair [(k, v)]
    at the root; on a search tree the tree it leaves is a search tree. *)
Theorem insert_at_root (t : tree) (k v : Z) :
  exists l r,
    insert k v t = Ok (tt, Node k v l r) /\
    (bst t -> bst (Node k v l r)).
Proof.
  destruct (insert_root t k v) as (l & r & E). exists l, r.
  split; [exact E|]. intros Hb.
  destruct (insert_spec t k v Hb) as (t' & E' & Hb' & _). congruence.
Qed.

(** X20. On a search tree that holds the index [n], the driver returns the
    value stored with [n], whatever that value is, and leaves the entries
    of the tree as they were: the loop does not run. *)
Theorem fibonacci_splay_stored (t : tree) (n v : Z) :
  bst t -> In (n, v) (items t) ->
  exists t', fibonacci_splay n t = Ok (Some v, t') /\ items t' = items t.
Proof.
  intros Hb Hin. unfold fibonacci_splay, bindM.
  destruct (search_stored t n Hb (in_items_keys _ _ _ Hin))
    as (a & t' & -> & Hi & Ha).
  exists t'. unfold ret. now rewrite (bst_one_value t n a v Hb Ha Hin).
Qed.

Lemma fibonacci_splay_stored_witness :
  bst tree_3_5 /\ In (5, 50) (items tree_3_5) /\
  exists t', fibonacci_splay 5 tree_3_5 = Ok (Some 50, t') /\
             items t' = items tree_3_5.
Proof.
  assert (Hb : bst tree_3_5) by (simpl; repeat split; lia).
  assert (Hin : In (5, 50) (items tree_3_5)) by (simpl; auto).
  exact (conj Hb (conj Hin (fibonacci_splay_stored tree_3_5 5 50 Hb Hin))).
Defined.
